(** * Canvas editor: the state machine of [src/app/page.tsx]

    A shallow embedding of the [Home] component of the positioned canvas
    (page.tsx, second document, lines 215-556): its React state, the five
    event handlers, the hover handler of [CanvasBlock] and the connection
    recomputation of [ConnectionLines], with [registerRef], the toolbox and
    the drop callback of [Canvas].  The two earlier drafts of the same
    component (page.tsx lines 1-214 and the third document of
    src/unnamed/part_001) are embedded in [Module Draft], with their
    context menu.

    Conventions.
    - One event handler runs to completion and React re-renders before the
      next event is delivered, so a handler is a function from the state of
      the render it closes over to the state of the next render.
    - [number] coordinates are taken in [Z]; the handlers only copy them or
      add them, and no statement below depends on an arithmetic law that
      doubles lack.
    - [uuidv4()] is an external generator: the value a call returns is an
      argument of the handler that makes the call.
    - [Math.hypot] is a built-in whose precision is the engine's: it is a
      parameter of the connection recomputation. *)

From Stdlib Require Import ZArith List Bool QArith.
From Stdlib Require Import Uint63 PrimFloat FloatOps SpecFloat.
From stdpp Require Import base option list strings gmap.

Close Scope Q_scope.

(** ** Data model (page.tsx 225-239) *)

Inductive BlockType := blockA | blockB.

Record Block := mkBlock {
  id : string;
  type : BlockType;
  label : string;
  x : Z;
  y : Z;
  showMessage : option bool  (* optional field: absent, or a boolean *)
}.

(** [type === "blockA"], [type === "blockB"]. *)
Definition isA (t : BlockType) : bool :=
  match t with blockA => true | blockB => false end.

Definition isB (t : BlockType) : bool :=
  match t with blockA => false | blockB => true end.

(** The React state of [Home] (page.tsx 447-450): [blocks] is the list
    handed to [Canvas] for rendering, [history] the snapshots,
    [currentIndex] the cursor; [blocksRef] is the mirror kept in a ref. *)
Record Home := mkHome {
  blocks : list Block;
  history : list (list Block);
  currentIndex : nat;
  blocksRef : list Block
}.

(** [useState([])], [useState([[]])], [useState(0)], [useRef([])]. *)
Definition initial : Home :=
  {| blocks := []; history := [[]]; currentIndex := 0; blocksRef := [] |}.

(** [Array.prototype.slice(start, end)] on indices that are naturals. *)
Definition slice {A} (start end_ : nat) (l : list A) : list A :=
  take (end_ - start) (drop start l).

(** JavaScript truthiness of an optional boolean ([!undefined] is [true]). *)
Definition truthy (o : option bool) : bool :=
  match o with Some b => b | None => false end.

(** ** Handlers of [Home] *)

(** page.tsx 457-465. *)
Definition moveBlock (id0 : string) (x0 y0 : Z) (s : Home) : Home :=
  let updated :=
    map (fun block =>
           if String.eqb (id block) id0
           then {| id := id block; type := type block; label := label block;
                   x := x0; y := y0; showMessage := showMessage block |}
           else block)
        (blocks s) in
  {| blocks := updated; history := history s;
     currentIndex := currentIndex s; blocksRef := updated |}.

(** page.tsx 467-473; the ref is not written here. *)
Definition toggleMessage (id0 : string) (s : Home) : Home :=
  {| blocks :=
       map (fun block =>
              if String.eqb (id block) id0
              then {| id := id block; type := type block; label := label block;
                      x := x block; y := y block;
                      showMessage := Some (negb (truthy (showMessage block))) |}
              else block)
           (blocks s);
     history := history s; currentIndex := currentIndex s;
     blocksRef := blocksRef s |}.

(** The condition of the [if] at page.tsx 476: the drop is turned down. *)
Definition rejects (ty : BlockType) (bs : list Block) : bool :=
  isB ty && negb (existsb (fun b => isA (type b)) bs).

(** The object literal at page.tsx 481-487; [uuid] is what [uuidv4()]
    returns in this call. *)
Definition newBlock (uuid : string) (ty : BlockType) (x0 y0 : Z) : Block :=
  {| id := uuid; type := ty;
     label := String.append "Block " (if isA ty then "A" else "B");
     x := x0; y := y0; showMessage := None |}.

(** page.tsx 490-495: the new list becomes the live state and the ref, the
    history is cut after the cursor and extended, the cursor moves to the
    end. *)
Definition commit (newBlocks : list Block) (s : Home) : Home :=
  let updatedHistory := slice 0 (currentIndex s + 1) (history s) ++ [newBlocks] in
  {| blocks := newBlocks; history := updatedHistory;
     currentIndex := length updatedHistory - 1; blocksRef := newBlocks |}.

Definition alertText : string := "Block B requires Block A first!".

(** page.tsx 475-496.  The first component is the [alert] raised, if any. *)
Definition handleDropBlock (uuid : string) (ty : BlockType) (x0 y0 : Z)
    (s : Home) : option string * Home :=
  if rejects ty (blocks s) then (Some alertText, s)
  else (None, commit (blocks s ++ [newBlock uuid ty x0 y0]) s).

(** page.tsx 498-506.  [history[newIndex]] outside the array is
    [undefined]; storing it as [blocks] leaves no list to render, which is
    the result [None]. *)
Definition handleUndo (s : Home) : option Home :=
  if 0 <? currentIndex s then
    let newIndex := currentIndex s - 1 in
    prevState ← history s !! newIndex;
    Some {| blocks := prevState; history := history s;
            currentIndex := newIndex; blocksRef := prevState |}
  else Some s.

(** page.tsx 508-516.  The truncated subtraction of [nat] agrees with
    [history.length - 1] in the test: for an empty history both sides make
    it false. *)
Definition handleRedo (s : Home) : option Home :=
  if currentIndex s <? length (history s) - 1 then
    let newIndex := currentIndex s + 1 in
    nextState ← history s !! newIndex;
    Some {| blocks := nextState; history := history s;
            currentIndex := newIndex; blocksRef := nextState |}
  else Some s.

(** The [disabled] attributes of the two buttons (page.tsx 525, 532). *)
Definition undoDisabled (s : Home) : bool := currentIndex s =? 0.
Definition redoDisabled (s : Home) : bool :=
  (Z.of_nat (currentIndex s) =? Z.of_nat (length (history s)) - 1)%Z.

(** ** Events delivered to [Home] *)

Inductive Event :=
  | EDrop (uuid : string) (ty : BlockType) (x0 y0 : Z)
  | EMove (id0 : string) (x0 y0 : Z)
  | EToggle (id0 : string)
  | EUndo
  | ERedo.

Definition dispatch (e : Event) (s : Home) : option Home :=
  match e with
  | EDrop uuid ty x0 y0 => Some (handleDropBlock uuid ty x0 y0 s).2
  | EMove id0 x0 y0 => Some (moveBlock id0 x0 y0 s)
  | EToggle id0 => Some (toggleMessage id0 s)
  | EUndo => handleUndo s
  | ERedo => handleRedo s
  end.

Fixpoint run (evs : list Event) (s : Home) : option Home :=
  match evs with
  | [] => Some s
  | e :: evs' => s' ← dispatch e s; run evs' s'
  end.

(** The cursor points into the history. *)
Definition wf (s : Home) : Prop := currentIndex s < length (history s).

(** The dependency rule on a list of blocks. *)
Definition dep_ok (bs : list Block) : Prop :=
  existsb (fun b => isB (type b)) bs = true →
  existsb (fun b => isA (type b)) bs = true.





(** The events that touch the history: drops, undo and redo. *)
Definition historyEvent (e : Event) : bool :=
  match e with
  | EDrop _ _ _ _ | EUndo | ERedo => true
  | EMove _ _ _ | EToggle _ => false
  end.

(** ** [CanvasBlock]: the drop target on every placed block (page.tsx 255-287) *)

(** One mounted instance of the component: its [block] prop, whether
    [ref.current] holds a node, and the [position] ref. *)
Record CanvasBlock := mkCanvasBlock {
  block : Block;
  node : bool;
  position : Z * Z
}.

(** First render and ref callback: [useRef({ x: block.x, y: block.y })]. *)
Definition mount (b : Block) : CanvasBlock :=
  {| block := b; node := true; position := (x b, y b) |}.

(** The [hover] callback of the drop target (page.tsx 271-278).  [self] is
    the instance the pointer is over, [itemId] the [id] of the dragged item,
    [delta] the result of [monitor.getDifferenceFromInitialOffset()]. *)
Definition hover (self : CanvasBlock) (itemId : string)
    (delta : option (Z * Z)) (s : Home) : Home :=
  if negb (node self) then s
  else match delta with
       | None => s
       | Some d =>
           let newX := ((position self).1 + d.1)%Z in
           let newY := ((position self).2 + d.2)%Z in
           moveBlock itemId newX newY s
       end.

(** The [drop] callback of the drop target (page.tsx 279-286). *)
Definition dropOn (self : CanvasBlock) (delta : option (Z * Z)) : CanvasBlock :=
  match delta with
  | None => self
  | Some d =>
      {| block := block self; node := node self;
         position := (((position self).1 + d.1)%Z, ((position self).2 + d.2)%Z) |}
  end.

(** ** [ConnectionLines]: the connection recomputation (page.tsx 325-354) *)

(** What the recomputation reads of a registered element. The DOM reports
    both offsets as integers. *)
Record HTMLDivElement := mkDiv {
  offsetLeft : Z;
  offsetTop : Z
}.

(** [Math.hypot(dx, dy)] is a built-in whose precision the language leaves
    to the engine, so it is a parameter [hypot] of the recomputation.  Its
    arguments are differences of integer offsets; its result, a finite
    double that is only ever compared with [<], is taken as the rational
    number it denotes, and [<] on such doubles is [<] on those numbers. *)
Definition lessThan (p q : Q) : bool :=
  match (p ?= q)%Q with Lt => true | _ => false end.

(** The callback of [aBlocks.reduce] (page.tsx 331-343) for the dependent
    block [b]; an id with no element, or with [null], is an absent key of
    [refs]. *)
Definition nearer (hypot : Z → Z → Q) (refs : gmap string HTMLDivElement)
    (b : Block) (nearest : option (Block * Q)) (a : Block)
    : option (Block * Q) :=
  match refs !! id a, refs !! id b with
  | Some aRef, Some bRef =>
      let dist := hypot (offsetLeft aRef - offsetLeft bRef)%Z
                        (offsetTop aRef - offsetTop bRef)%Z in
      match nearest with
      | None => Some (a, dist)
      | Some n => if lessThan dist n.2 then Some (a, dist) else nearest
      end
  | _, _ => nearest
  end.

Definition nearestA (hypot : Z → Z → Q) (refs : gmap string HTMLDivElement)
    (aBlocks : list Block) (b : Block) : option (Block * Q) :=
  fold_left (nearer hypot refs b) aBlocks None.

(** page.tsx 326-346: the pairs handed to [setPairs]. *)
Definition updateConnections (hypot : Z → Z → Q) (bs : list Block)
    (refs : gmap string HTMLDivElement) : list (Block * Block) :=
  let aBlocks := List.filter (fun b => isA (type b)) bs in
  let bBlocks := List.filter (fun b => isB (type b)) bs in
  fold_left
    (fun newPairs b =>
       match nearestA hypot refs aBlocks b with
       | Some n => newPairs ++ [(n.1, b)]
       | None => newPairs
       end)
    bBlocks [].

(** The value the recomputation compares for two blocks when both elements
    are registered: what [Math.hypot] returns for their offsets. *)
Definition distance (hypot : Z → Z → Q) (refs : gmap string HTMLDivElement)
    (a b : Block) : option Q :=
  aRef ← refs !! id a;
  bRef ← refs !! id b;
  Some (hypot (offsetLeft aRef - offsetLeft bRef)%Z
              (offsetTop aRef - offsetTop bRef)%Z).

(** *** [Math.hypot] in one engine

    V8 computes [Math.hypot] (builtins/math.tq) on binary64 by a
    compensated sum of the squares of the magnitudes, each divided by the
    largest one, and multiplies the square root of the sum by the largest
    magnitude.  Used for the examples; the arguments are exact as doubles
    below 2^53. *)
Definition toFloat64 (z : Z) : float :=
  PrimFloat.of_uint63 (Uint63.of_Z (Z.abs z)).

(** One round of the summation loop: [acc] is [(sum, compensation)]. *)
Definition kahan (max : float) (acc : float * float) (v : float)
    : float * float :=
  let n := PrimFloat.div v max in
  let summand := PrimFloat.sub (PrimFloat.mul n n) acc.2 in
  let preliminary := PrimFloat.add acc.1 summand in
  (preliminary, PrimFloat.sub (PrimFloat.sub preliminary acc.1) summand).

Definition MathHypotV8 (dx dy : Z) : float :=
  let absoluteValues := [toFloat64 dx; toFloat64 dy] in
  let max :=
    fold_left (fun m v => if PrimFloat.ltb m v then v else m)
              absoluteValues PrimFloat.zero in
  if PrimFloat.eqb max PrimFloat.zero then PrimFloat.zero
  else
    let sum :=
      (fold_left (kahan max) absoluteValues (PrimFloat.zero, PrimFloat.zero)).1 in
    PrimFloat.mul (PrimFloat.sqrt sum) max.

(** The rational number a finite double denotes. *)
Definition valueOf (f : float) : Q :=
  match Prim2SF f with
  | S754_finite s m e =>
      let n := if s then Z.neg m else Z.pos m in
      match e with
      | Z.neg p => Qmake n (2 ^ p)
      | _ => Qmake (n * 2 ^ e) 1
      end
  | _ => 0%Q
  end.

Definition hypotV8 (dx dy : Z) : Q := valueOf (MathHypotV8 dx dy).

(** ** The earlier drafts of [Home]
    (page.tsx 116-161; src/unnamed/part_001, third document, 167-211).
    Both drafts have the same handlers up to the names of local constants. *)
Module Draft.

Record Block := mkBlock {
  id : string;
  label : string
}.

(** The palette (page.tsx 12-15). *)
Definition BLOCKS : list Block :=
  [ {| id := "blockA"; label := "Block A" |};
    {| id := "blockB"; label := "Block B" |} ].

Record Home := mkHome {
  blocks : list Block;
  history : list (list Block);
  currentIndex : nat;
  blocksRef : list Block
}.

Definition initial : Home :=
  {| blocks := []; history := [[]]; currentIndex := 0; blocksRef := [] |}.

(** page.tsx 128-143: the palette entry itself is appended. *)
Definition handleDropBlock (block : Block) (s : Home) : option string * Home :=
  let currentBlocks := map id (blocksRef s) in
  if String.eqb (id block) "blockB"
     && negb (existsb (String.eqb "blockA") currentBlocks)
  then (Some alertText, s)
  else
    let newBlocks := blocksRef s ++ [block] in
    let updatedHistory :=
      slice 0 (currentIndex s + 1) (history s) ++ [newBlocks] in
    (None,
     {| blocks := newBlocks; history := updatedHistory;
        currentIndex := length updatedHistory - 1; blocksRef := newBlocks |}).

(** page.tsx 145-152. *)
Definition handleUndo (s : Home) : option Home :=
  if 0 <? currentIndex s then
    let newIndex := currentIndex s - 1 in
    prev ← history s !! newIndex;
    Some {| blocks := prev; history := history s;
            currentIndex := newIndex; blocksRef := prev |}
  else Some s.

(** page.tsx 154-161. *)
Definition handleRedo (s : Home) : option Home :=
  if currentIndex s <? length (history s) - 1 then
    let newIndex := currentIndex s + 1 in
    next ← history s !! newIndex;
    Some {| blocks := next; history := history s;
            currentIndex := newIndex; blocksRef := next |}
  else Some s.

(** What the drop handler works on.  [Canvas] hands [useDrop] a factory and
    no dependency list (page.tsx 87-90; part_001 133-136), so the hook
    keeps the specification of the first render and, in it, the
    [onDropBlock] of the first render: a [handleDropBlock] whose [blocks],
    [history] and [currentIndex] are those of [initial].  [blocksRef] is a
    ref and is read when the drop happens. *)
Definition firstRender (s : Home) : Home :=
  {| blocks := blocks initial; history := history initial;
     currentIndex := currentIndex initial; blocksRef := blocksRef s |}.

(** A drop as [Canvas] delivers it.  An accepted drop calls all three
    setters and writes the ref; a rejected one leaves the state alone. *)
Definition onDropBlock (block : Block) (s : Home) : option string * Home :=
  let r := handleDropBlock block (firstRender s) in
  match r.1 with
  | Some alert => (Some alert, s)
  | None => r
  end.

(** The events of a draft: a drop of a dragged item, the two buttons (their
    handlers are those of the current render, page.tsx 180, 187). *)
Inductive Event :=
  | EDrop (block : Block)
  | EUndo
  | ERedo.

Definition dispatch (e : Event) (s : Home) : option Home :=
  match e with
  | EDrop block => Some (onDropBlock block s).2
  | EUndo => handleUndo s
  | ERedo => handleRedo s
  end.

Fixpoint run (evs : list Event) (s : Home) : option Home :=
  match evs with
  | [] => Some s
  | e :: evs' => s' ← dispatch e s; run evs' s'
  end.

(** The dependency rule of the drafts, on the ids of a list. *)
Definition dep_ok (bs : list Block) : Prop :=
  existsb (String.eqb "blockB") (map id bs) = true →
  existsb (String.eqb "blockA") (map id bs) = true.

(** The ref, the live list and the snapshot under the cursor are one list,
    and every snapshot keeps the dependency rule. *)
Definition steady (s : Home) : Prop :=
  blocksRef s = blocks s
  ∧ history s !! currentIndex s = Some (blocks s)
  ∧ Forall dep_ok (history s).



(** The history is the empty canvas, or the empty canvas and one more
    snapshot, and the cursor is inside it. *)
Definition short (s : Home) : Prop :=
  (history s = [[]] ∨ ∃ l, history s = [[]; l])
  ∧ currentIndex s < length (history s).

(** The context menu of the drafts (page.tsx 120-124): the state kept by
    [Home]. *)
Record Menu := mkMenu {
  visible : bool;
  x : Z;
  y : Z
}.

Definition noMenu : Menu := {| visible := false; x := 0; y := 0 |}.

(** page.tsx 163-165. *)
Definition handleContextMenu (x0 y0 : Z) (m : Menu) : Menu :=
  {| visible := true; x := x0; y := y0 |}.

(** page.tsx 167-169. *)
Definition closeContextMenu (m : Menu) : Menu :=
  {| visible := false; x := x m; y := y m |}.

(** [ContextMenu] (page.tsx 58-76): nothing, or the box with its [top] and
    [left]. *)
Definition ContextMenu (m : Menu) : option (Z * Z) :=
  if negb (visible m) then None else Some (y m, x m).

(** A right-click on a placed block, or a click anywhere on the page. *)
Inductive MenuEvent :=
  | RightClick (clientX clientY : Z)
  | Click.

Definition menuStep (m : Menu) (e : MenuEvent) : Menu :=
  match e with
  | RightClick clientX clientY => handleContextMenu clientX clientY m
  | Click => closeContextMenu m
  end.

End Draft.

(** ** Invariants and predicates used in the statements *)

(** The snapshot under the cursor is the live list. *)
Definition in_sync (s : Home) : Prop :=
  history s !! currentIndex s = Some (blocks s).

(** What every run keeps true. *)
Definition good (s : Home) : Prop :=
  wf s ∧ dep_ok (blocks s) ∧ Forall dep_ok (history s).


(** What the reduction has found for [b] after the prerequisite blocks [l]:
    nothing, when none of them has a registered element; otherwise a block
    of [l] with the value computed for it and [b], not greater than the
    value computed for any registered block of [l] and strictly less than
    the value computed for every registered block before it in [l]. *)
Definition is_nearest (hypot : Z → Z → Q) (refs : gmap string HTMLDivElement)
    (l : list Block) (b : Block) (r : option (Block * Q)) : Prop :=
  match r with
  | None => ∀ a, a ∈ l → refs !! id a = None
  | Some n =>
      ∃ i, l !! i = Some n.1
           ∧ distance hypot refs n.1 b = Some n.2
           ∧ ∀ j a' d', l !! j = Some a' →
                        distance hypot refs a' b = Some d' →
                        (n.2 <= d')%Q ∧ (j < i → (n.2 < d')%Q)
  end.

(** ** [registerRef] and the effect that calls it *)

(** page.tsx 453-455: [blockRefs.current[id] = ref].  A [null] stored under
    an id reads as falsy, like an id never written. *)
Definition registerRef (id0 : string) (ref : option HTMLDivElement)
    (refs : gmap string HTMLDivElement) : gmap string HTMLDivElement :=
  match ref with
  | Some el => <[id0 := el]> refs
  | None => delete id0 refs
  end.

(** The effect of one [CanvasBlock] (page.tsx 259-261): [current] is
    [ref.current]. *)
Definition registerEffect (b : Block) (current : option HTMLDivElement)
    (refs : gmap string HTMLDivElement) : gmap string HTMLDivElement :=
  match current with
  | Some el => registerRef (id b) (Some el) refs
  | None => refs
  end.

(** The effects of the blocks rendered by [Canvas] (page.tsx 432-440), run
    in the order of the list; [current b] is the node of the instance of
    [b]. *)
Definition registerAll (current : Block → option HTMLDivElement)
    (bs : list Block) (refs : gmap string HTMLDivElement)
    : gmap string HTMLDivElement :=
  fold_left (fun r b => registerEffect b (current b) r) bs refs.

(** ** The toolbox and the drop on the canvas *)

Module Toolbox.

(** An entry of the palette (page.tsx 236-239). *)
Record Entry := mkEntry {
  id : string;
  label : string;
  type : BlockType
}.

Definition BLOCKS : list Entry :=
  [ {| id := "blockA"; label := "Block A"; type := blockA |};
    {| id := "blockB"; label := "Block B"; type := blockB |} ].

(** The item a [DraggableBlock] hands to the drag (page.tsx 244). *)
Definition item (block : Entry) : BlockType := type block.

End Toolbox.

(** The [drop] callback of [Canvas] (page.tsx 414-422).  [rect] is the
    [left] and [top] of the canvas when [canvasRef.current] holds a node,
    [offset] the result of [monitor.getClientOffset()]. *)
Definition canvasDrop (rect offset : option (Z * Z)) (uuid : string)
    (itemType : BlockType) (s : Home) : option string * Home :=
  match rect, offset with
  | Some r, Some o =>
      let x0 := (o.1 - r.1)%Z in
      let y0 := (o.2 - r.2)%Z in
      handleDropBlock uuid itemType x0 y0 s
  | _, _ => (None, s)
  end.

(** ** More predicates used in the statements *)

(** What a block is, apart from where it is and whether its message
    shows. *)
Definition ident (b : Block) : string * BlockType * string :=
  (id b, type b, label b).

(** A block without its message flag. *)
Definition withoutMessage (b : Block) : Block :=
  {| id := id b; type := type b; label := label b;
     x := x b; y := y b; showMessage := None |}.

(** The state [handleUndo] and [handleRedo] store when they move the cursor
    to [i], where the snapshot is [snap]. *)
Definition jump (s : Home) (i : nat) (snap : list Block) : Home :=
  {| blocks := snap; history := history s; currentIndex := i;
     blocksRef := snap |}.

(** The shape of every state a run reaches: the cursor is inside the
    history; the live list has as many blocks as the cursor says and
    snapshot [i] has [i]; the live list holds the blocks of the snapshot
    under the cursor, up to position and flag; each snapshot holds those of
    the one before it and one more; a first block is of kind [blockA]. *)
Definition tidy (s : Home) : Prop :=
  wf s
  ∧ length (blocks s) = currentIndex s
  ∧ (∀ i snap, history s !! i = Some snap → length snap = i)
  ∧ (∃ snap, history s !! currentIndex s = Some snap
             ∧ ident <$> blocks s = ident <$> snap)
  ∧ (∀ i snap snap', history s !! i = Some snap →
       history s !! S i = Some snap' →
       ∃ b, ident <$> snap' = (ident <$> snap) ++ [ident b])
  ∧ (∀ i snap b, history s !! i = Some snap → snap !! 0 = Some b →
       type b = blockA).

(** * Properties *)

(** ** Lists and the history cut *)

Lemma slice_0 {A} (n : nat) (l : list A) : slice 0 n l = take n l.
Proof. unfold slice. by rewrite Nat.sub_0_r, drop_0. Qed.

Lemma commit_history nb s :
  history (commit nb s) = take (S (currentIndex s)) (history s) ++ [nb].
Proof. unfold commit; simpl. by rewrite slice_0, Nat.add_1_r. Qed.

Lemma commit_history_length nb s :
  length (history (commit nb s)) = S (currentIndex (commit nb s)).
Proof. unfold commit; simpl. rewrite length_app; simpl. lia. Qed.

(** After a commit the cursor is on the snapshot just stored, whatever the
    state before. *)
Lemma commit_cursor nb s :
  history (commit nb s) !! currentIndex (commit nb s) = Some nb.
Proof.
  unfold commit; simpl.
  rewrite length_app; simpl.
  replace (length (slice 0 (currentIndex s + 1) (history s)) + 1 - 1)
    with (length (slice 0 (currentIndex s + 1) (history s)) + 0) by lia.
  by rewrite lookup_app_r, Nat.add_0_r, Nat.sub_diag by lia.
Qed.

Lemma commit_wf nb s : wf (commit nb s).
Proof. unfold wf. rewrite commit_history_length. lia. Qed.

Lemma commit_index_wf nb s :
  wf s → currentIndex (commit nb s) = S (currentIndex s).
Proof.
  unfold wf, commit; simpl; intros Hwf.
  rewrite slice_0, length_app, length_take; simpl. lia.
Qed.

(** ** Undo and redo, step by step *)

Lemma handleUndo_at_0 s : currentIndex s = 0 → handleUndo s = Some s.
Proof. unfold handleUndo. by intros ->. Qed.

Lemma handleUndo_step s prev :
  0 < currentIndex s →
  history s !! (currentIndex s - 1) = Some prev →
  handleUndo s =
    Some {| blocks := prev; history := history s;
            currentIndex := currentIndex s - 1; blocksRef := prev |}.
Proof.
  intros Hpos Hprev. unfold handleUndo.
  destruct (Nat.ltb_spec 0 (currentIndex s)); [|lia].
  by rewrite Hprev.
Qed.

Lemma handleRedo_at_end s :
  length (history s) - 1 ≤ currentIndex s → handleRedo s = Some s.
Proof.
  intros Hend. unfold handleRedo.
  by destruct (Nat.ltb_spec (currentIndex s) (length (history s) - 1)); [lia|].
Qed.

Lemma handleRedo_step s next :
  history s !! (currentIndex s + 1) = Some next →
  handleRedo s =
    Some {| blocks := next; history := history s;
            currentIndex := currentIndex s + 1; blocksRef := next |}.
Proof.
  intros Hnext. unfold handleRedo.
  apply lookup_lt_Some in Hnext as Hlt.
  destruct (Nat.ltb_spec (currentIndex s) (length (history s) - 1)); [|lia].
  by rewrite Hnext.
Qed.

(** Redo never reads outside the history; undo does not either once the
    cursor points into it. *)
Lemma handleRedo_total s : is_Some (handleRedo s).
Proof.
  unfold handleRedo.
  destruct (Nat.ltb_spec (currentIndex s) (length (history s) - 1)) as [Hlt|]; [|eauto].
  destruct (lookup_lt_is_Some_2 (history s) (currentIndex s + 1)) as [n Hn]; [lia|].
  rewrite Hn; simpl; eauto.
Qed.

Lemma handleUndo_total s : wf s → is_Some (handleUndo s).
Proof.
  unfold wf, handleUndo; intros Hwf.
  destruct (Nat.ltb_spec 0 (currentIndex s)); [|eauto].
  destruct (lookup_lt_is_Some_2 (history s) (currentIndex s - 1)) as [p Hp]; [lia|].
  rewrite Hp; simpl; eauto.
Qed.

Lemma handleUndo_history s u : handleUndo s = Some u → history u = history s.
Proof.
  unfold handleUndo. destruct (0 <? currentIndex s); [|by intros [= <-]].
  destruct (history s !! _); simpl; [by intros [= <-]|done].
Qed.

Lemma handleRedo_history s r : handleRedo s = Some r → history r = history s.
Proof.
  unfold handleRedo. destruct (_ <? _); [|by intros [= <-]].
  destruct (history s !! _); simpl; [by intros [= <-]|done].
Qed.

Lemma in_sync_wf s : in_sync s → wf s.
Proof. unfold in_sync, wf. apply lookup_lt_Some. Qed.

Lemma handleUndo_in_sync s u : in_sync s → handleUndo s = Some u → in_sync u.
Proof.
  unfold handleUndo, in_sync. intros Hs.
  destruct (0 <? currentIndex s); [|by intros [= <-]].
  destruct (history s !! (currentIndex s - 1)) eqn:Hp; simpl; [|done].
  by intros [= <-].
Qed.

Lemma handleRedo_in_sync s r : in_sync s → handleRedo s = Some r → in_sync r.
Proof.
  unfold handleRedo, in_sync. intros Hs.
  destruct (_ <? _); [|by intros [= <-]].
  destruct (history s !! (currentIndex s + 1)) eqn:Hp; simpl; [|done].
  by intros [= <-].
Qed.

Lemma handleDropBlock_in_sync uuid ty x0 y0 s :
  in_sync s → in_sync (handleDropBlock uuid ty x0 y0 s).2.
Proof.
  unfold handleDropBlock. destruct (rejects ty (blocks s)); simpl; [done|].
  intros _. apply commit_cursor.
Qed.

Lemma rejects_spec ty bs :
  rejects ty bs = true ↔ ty = blockB ∧ ∀ a, a ∈ bs → type a ≠ blockA.
Proof.
  unfold rejects. rewrite andb_true_iff, negb_true_iff. split.
  - intros [HB Hnone]. split; [by destruct ty|].
    intros a Ha Hty. apply not_true_iff_false in Hnone. apply Hnone.
    apply existsb_exists. exists a. rewrite <- list_elem_of_In, Hty. done.
  - intros [-> Hnone]. split; [done|].
    apply not_true_iff_false. intros (a & Ha & HA)%existsb_exists.
    apply (Hnone a); [by apply list_elem_of_In|]. by destruct (type a).
Qed.

Lemma rejects_false ty bs :
  rejects ty bs = false ↔ ty = blockA ∨ ∃ a, a ∈ bs ∧ type a = blockA.
Proof.
  unfold rejects. rewrite andb_false_iff, negb_false_iff, existsb_exists. split.
  - intros [HB|(a & Ha & HA)]; [left; by destruct ty|right].
    exists a. rewrite list_elem_of_In. split; [done|by destruct (type a)].
  - intros [->|(a & Ha & HA)]; [by left|right].
    exists a. rewrite <- list_elem_of_In, HA. done.
Qed.

(** C1.  A drop of kind [blockA] is accepted in every state; a drop of kind
    [blockB] is accepted exactly when the live list holds a block of kind
    [blockA]; an accepted drop commits the list extended by the new block
    and raises no alert; a rejected drop raises the alert and returns the
    state it was given, so blocks, snapshots and cursor are all unchanged. *)
Theorem handleDropBlock_placement uuid ty x0 y0 s :
  handleDropBlock uuid blockA x0 y0 s
    = (None, commit (blocks s ++ [newBlock uuid blockA x0 y0]) s)
  ∧ ((handleDropBlock uuid blockB x0 y0 s).1 = None
       ↔ ∃ a, a ∈ blocks s ∧ type a = blockA)
  ∧ ((ty = blockA ∨ ∃ a, a ∈ blocks s ∧ type a = blockA)
       ∧ handleDropBlock uuid ty x0 y0 s
           = (None, commit (blocks s ++ [newBlock uuid ty x0 y0]) s)
     ∨ (ty = blockB ∧ ∀ a, a ∈ blocks s → type a ≠ blockA)
       ∧ handleDropBlock uuid ty x0 y0 s = (Some alertText, s)).
Proof.
  split; [done|]. split.
  - unfold handleDropBlock.
    destruct (rejects blockB (blocks s)) eqn:Hr; simpl.
    + apply rejects_spec in Hr as [_ Hnone]. split; [done|].
      intros (a & Ha & HA). by destruct (Hnone a Ha).
    + apply rejects_false in Hr as [?|?]; [done|]. by split.
  - unfold handleDropBlock.
    destruct (rejects ty (blocks s)) eqn:Hr.
    + right. split; [by apply rejects_spec|done].
    + left. split; [by apply rejects_false|done].
Qed.

(** ** The cursor and the live list *)

Lemma initial_in_sync : in_sync initial.
Proof. reflexivity. Qed.

Lemma run_history_events evs s :
  forallb historyEvent evs = true → in_sync s →
  ∃ s', run evs s = Some s' ∧ in_sync s'.
Proof.
  revert s. induction evs as [|e evs IH]; intros s Hev Hs; simpl in *.
  - eauto.
  - apply andb_true_iff in Hev as [He Hev].
    destruct e as [uuid ty x0 y0| | | |]; simpl in *; try discriminate.
    + apply IH; [done|]. by apply handleDropBlock_in_sync.
    + destruct (handleUndo_total s (in_sync_wf _ Hs)) as [u Hu].
      rewrite Hu; simpl. apply IH; [done|]. by eapply handleUndo_in_sync.
    + destruct (handleRedo_total s) as [r Hr].
      rewrite Hr; simpl. apply IH; [done|]. by eapply handleRedo_in_sync.
Qed.

(** C2.  Every sequence of drops, undos and redos from the initial state
    runs to a state, and in that state the snapshot under the cursor is the
    live list handed to the canvas.  As the sequence is arbitrary, this is
    the state after each of its operations. *)
Theorem snapshot_at_cursor_is_live evs :
  forallb historyEvent evs = true →
  ∃ s, run evs initial = Some s ∧ history s !! currentIndex s = Some (blocks s).
Proof. intros Hev. apply run_history_events; [done|apply initial_in_sync]. Qed.

Lemma snapshot_at_cursor_is_live_witness :
  let evs := [EDrop "u1" blockA 10 10; EDrop "u2" blockB 20 20; EUndo; ERedo;
              EUndo; EDrop "u3" blockA 5 5] in
  forallb historyEvent evs = true
  ∧ ∃ s, run evs initial = Some s
         ∧ history s !! currentIndex s = Some (blocks s).
Proof.
  intros evs. split; [reflexivity|].
  apply (snapshot_at_cursor_is_live evs). reflexivity.
Defined.

(** A move is not a commit: after it the snapshot under the cursor still
    holds the block where it was dropped. *)
Example move_leaves_snapshot_behind :
  ∃ s, run [EDrop "u1" blockA 10 10; EMove "u1" 30 40] initial = Some s
       ∧ blocks s = [newBlock "u1" blockA 30 40]
       ∧ history s !! currentIndex s = Some [newBlock "u1" blockA 10 10].
Proof. eexists. by repeat split. Qed.

(** ** Undo and redo around a commit *)

(** A state whose cursor is on the last snapshot, with the live list and the
    ref equal to that snapshot: the shape every commit produces. *)
Lemma redo_undo_at_end c :
  length (history c) = S (currentIndex c) →
  history c !! currentIndex c = Some (blocks c) →
  blocksRef c = blocks c →
  ∃ u, handleUndo c = Some u
       ∧ history u = history c
       ∧ currentIndex u = currentIndex c - 1
       ∧ handleRedo u = Some c.
Proof.
  destruct c as [bl h [|n] br]; simpl; intros Hlen Hcur ->.
  - eexists. split; [reflexivity|]. repeat split.
    apply handleRedo_at_end; simpl. lia.
  - destruct (lookup_lt_is_Some_2 h n) as [prev Hprev]; [lia|].
    eexists. split.
    { apply (handleUndo_step _ prev); simpl; [lia|].
      by rewrite Nat.sub_0_r. }
    simpl. rewrite Nat.sub_0_r. repeat split.
    erewrite handleRedo_step; simpl; rewrite Nat.add_1_r; done.
Qed.

(** C3.  Undo after a commit returns a state, redo from that state returns
    the state the commit produced: same live list (the committed one), same
    ref, same snapshots, same cursor.  In between, the snapshots are those
    of the commit and the cursor is one lower. *)
Theorem redo_undo_commit nb s :
  blocks (commit nb s) = nb
  ∧ ∃ u, handleUndo (commit nb s) = Some u
         ∧ history u = history (commit nb s)
         ∧ currentIndex u = currentIndex (commit nb s) - 1
         ∧ handleRedo u = Some (commit nb s).
Proof.
  split; [done|].
  apply redo_undo_at_end;
    [apply commit_history_length|apply commit_cursor|done].
Qed.

(** C4.  A commit keeps the snapshots at indices [0..cursor], drops the
    ones after them, stores the new list behind them as the last snapshot
    and puts the cursor on it; nothing is left to redo.  With the cursor
    inside the history that is: the snapshots up to the cursor are as they
    were, the new one sits at cursor + 1, which is the new cursor, and
    there are cursor + 2 of them.  From snapshots [s0, s1, s2] with cursor
    2, undo moves the cursor to 1 and a commit of [s3] then leaves
    [s0, s1, s3] with cursor 2, where redo changes nothing. *)
Theorem commit_truncates nb s :
  history (commit nb s) = take (currentIndex s + 1) (history s) ++ [nb]
  ∧ currentIndex (commit nb s) = length (history (commit nb s)) - 1
  ∧ history (commit nb s) !! currentIndex (commit nb s) = Some nb
  ∧ blocks (commit nb s) = nb
  ∧ handleRedo (commit nb s) = Some (commit nb s)
  ∧ (wf s →
     currentIndex (commit nb s) = currentIndex s + 1
     ∧ length (history (commit nb s)) = currentIndex s + 2
     ∧ ∀ i, i ≤ currentIndex s → history (commit nb s) !! i = history s !! i)
  ∧ ∀ s0 s1 s2 s3 live ref,
      let h := {| blocks := live; history := [s0; s1; s2];
                  currentIndex := 2; blocksRef := ref |} in
      ∃ u, handleUndo h = Some u
           ∧ currentIndex u = 1
           ∧ history u = [s0; s1; s2]
           ∧ history (commit s3 u) = [s0; s1; s3]
           ∧ currentIndex (commit s3 u) = 2
           ∧ handleRedo (commit s3 u) = Some (commit s3 u).
Proof.
  pose proof (commit_history_length nb s) as Hlen.
  split; [rewrite Nat.add_1_r; apply commit_history|].
  split; [lia|]. split; [apply commit_cursor|]. split; [done|].
  split; [apply handleRedo_at_end; lia|]. split.
  - intros Hwf. pose proof (commit_index_wf nb s Hwf) as Hidx.
    split; [lia|]. split; [lia|].
    intros i Hi. rewrite commit_history.
    rewrite lookup_app_l by (rewrite length_take; unfold wf in Hwf; lia).
    apply lookup_take_lt. lia.
  - intros s0 s1 s2 s3 live ref h. eexists. by repeat split.
Qed.

(** C10.  With the cursor inside the history, undo and redo each return a
    state whose snapshots are exactly those before, at the boundaries
    (where the whole state is returned as it is) as well as inside; the
    cursor moves by at most one.  After an undo that moved the cursor, redo
    is enabled, and it brings the cursor back onto the snapshot that was
    under it, with the snapshots still the same. *)
Theorem undo_redo_keep_snapshots s :
  wf s →
  ∃ u r, handleUndo s = Some u ∧ handleRedo s = Some r
    ∧ history u = history s ∧ history r = history s
    ∧ currentIndex u = currentIndex s - 1
    ∧ currentIndex r = Nat.min (currentIndex s + 1) (length (history s) - 1)
    ∧ (currentIndex s = 0 → u = s)
    ∧ (currentIndex s = length (history s) - 1 → r = s)
    ∧ (0 < currentIndex s →
       redoDisabled u = false
       ∧ ∃ r', handleRedo u = Some r'
               ∧ history r' = history s
               ∧ currentIndex r' = currentIndex s
               ∧ history s !! currentIndex s = Some (blocks r')).
Proof.
  intros Hwf. unfold wf in Hwf.
  destruct (handleUndo_total s Hwf) as [u Hu].
  destruct (handleRedo_total s) as [r Hr].
  exists u, r. split; [done|]. split; [done|].
  split; [by eapply handleUndo_history|].
  split; [by eapply handleRedo_history|].
  split.
  { revert Hu. unfold handleUndo.
    destruct (Nat.ltb_spec 0 (currentIndex s)); [|intros [= <-]; lia].
    destruct (history s !! _); simpl; [by intros [= <-]|done]. }
  split.
  { revert Hr. unfold handleRedo.
    destruct (Nat.ltb_spec (currentIndex s) (length (history s) - 1));
      [|intros [= <-]; lia].
    destruct (history s !! _); simpl; [intros [= <-]; simpl; lia|done]. }
  split.
  { intros H0. rewrite handleUndo_at_0 in Hu by done. by injection Hu. }
  split.
  { intros Hend. rewrite handleRedo_at_end in Hr by lia. by injection Hr. }
  intros Hpos.
  destruct (lookup_lt_is_Some_2 (history s) (currentIndex s - 1)) as [p Hp]; [lia|].
  destruct (lookup_lt_is_Some_2 (history s) (currentIndex s)) as [c Hc]; [lia|].
  rewrite (handleUndo_step s p Hpos Hp) in Hu. injection Hu as <-.
  split.
  { unfold redoDisabled; simpl. apply Z.eqb_neq. lia. }
  eexists. split.
  { apply handleRedo_step; simpl.
    replace (currentIndex s - 1 + 1) with (currentIndex s) by lia. exact Hc. }
  simpl. split; [done|]. split; [lia|done].
Qed.

Lemma undo_redo_keep_snapshots_witness :
  let s := {| blocks := [newBlock "u1" blockA 1 1];
              history := [[]; [newBlock "u1" blockA 1 1]];
              currentIndex := 1; blocksRef := [newBlock "u1" blockA 1 1] |} in
  wf s ∧ ∃ u r, handleUndo s = Some u ∧ handleRedo s = Some r
                ∧ history u = history s ∧ history r = history s.
Proof.
  intros s.
  assert (Hwf : wf s) by (unfold wf; simpl; lia).
  split; [exact Hwf|].
  destruct (undo_redo_keep_snapshots s Hwf) as (u & r & Hu & Hr & Hhu & Hhr & _).
  exists u, r. repeat split; assumption.
Defined.

(** ** The dependency rule along every run *)

Lemma existsb_map_type (p : BlockType → bool) (f : Block → Block) bs :
  (∀ b, type (f b) = type b) →
  existsb (fun b => p (type b)) (map f bs) = existsb (fun b => p (type b)) bs.
Proof.
  intros Hf. induction bs as [|b bs IH]; simpl; [done|].
  by rewrite Hf, IH.
Qed.

Lemma dep_ok_map f bs :
  (∀ b, type (f b) = type b) → dep_ok bs → dep_ok (map f bs).
Proof. unfold dep_ok. intros Hf. by rewrite !existsb_map_type. Qed.

Lemma dep_ok_nil : dep_ok [].
Proof. by unfold dep_ok. Qed.

Lemma dep_ok_accepted uuid ty x0 y0 bs :
  rejects ty bs = false → dep_ok bs → dep_ok (bs ++ [newBlock uuid ty x0 y0]).
Proof.
  unfold dep_ok, rejects. intros Hacc Hbs.
  rewrite !existsb_app; simpl. rewrite !orb_false_r.
  destruct ty; simpl in *; [by rewrite orb_true_r|].
  apply negb_false_iff in Hacc. by rewrite Hacc.
Qed.

Lemma good_initial : good initial.
Proof.
  unfold good, wf; simpl. split; [lia|]. split; [apply dep_ok_nil|].
  repeat constructor. apply dep_ok_nil.
Qed.

Lemma good_moveBlock id0 x0 y0 s : good s → good (moveBlock id0 x0 y0 s).
Proof.
  intros (Hwf & Hb & Hh). repeat split; [done| |done].
  simpl. apply dep_ok_map; [|done]. intros b. by destruct (String.eqb _ _).
Qed.

Lemma good_toggleMessage id0 s : good s → good (toggleMessage id0 s).
Proof.
  intros (Hwf & Hb & Hh). repeat split; [done| |done].
  simpl. apply dep_ok_map; [|done]. intros b. by destruct (String.eqb _ _).
Qed.

Lemma good_handleDropBlock uuid ty x0 y0 s :
  good s → good (handleDropBlock uuid ty x0 y0 s).2.
Proof.
  intros (Hwf & Hb & Hh). unfold handleDropBlock.
  destruct (rejects ty (blocks s)) eqn:Hr; cbn [snd]; [done|].
  pose proof (dep_ok_accepted uuid ty x0 y0 _ Hr Hb) as Hnew.
  split; [apply commit_wf|]. split; [done|].
  rewrite commit_history. apply Forall_app. split; [by apply Forall_take|].
  by repeat constructor.
Qed.

Lemma good_handleUndo s u : good s → handleUndo s = Some u → good u.
Proof.
  intros (Hwf & Hb & Hh). unfold handleUndo, wf in *.
  destruct (Nat.ltb_spec 0 (currentIndex s)); [|by intros [= <-]].
  destruct (history s !! (currentIndex s - 1)) as [p|] eqn:Hp; simpl; [|done].
  intros [= <-]. unfold good, wf; simpl. split; [lia|]. split; [|done].
  by eapply Forall_lookup_1.
Qed.

Lemma good_handleRedo s r : good s → handleRedo s = Some r → good r.
Proof.
  intros (Hwf & Hb & Hh). unfold handleRedo, wf in *.
  destruct (Nat.ltb_spec (currentIndex s) (length (history s) - 1));
    [|by intros [= <-]].
  destruct (history s !! (currentIndex s + 1)) as [p|] eqn:Hp; simpl; [|done].
  intros [= <-]. unfold good, wf; simpl. split; [lia|]. split; [|done].
  by eapply Forall_lookup_1.
Qed.

Lemma run_good evs s : good s → ∃ s', run evs s = Some s' ∧ good s'.
Proof.
  revert s. induction evs as [|e evs IH]; intros s Hs; simpl; [eauto|].
  destruct e as [uuid ty x0 y0|id0 x0 y0|id0| |]; simpl.
  - apply IH. by apply good_handleDropBlock.
  - apply IH. by apply good_moveBlock.
  - apply IH. by apply good_toggleMessage.
  - destruct (handleUndo_total s) as [u Hu]; [apply Hs|].
    rewrite Hu; simpl. apply IH. by eapply good_handleUndo.
  - destruct (handleRedo_total s) as [r Hr].
    rewrite Hr; simpl. apply IH. by eapply good_handleRedo.
Qed.

(** C6.  Every sequence of drop, move, toggle, undo and redo events from the
    initial state runs to a state; there the live list, and every snapshot
    held in the history, contains a block of kind [blockA] whenever it
    contains one of kind [blockB].  Each snapshot ever stored is in the
    history of the state reached by the events up to its commit. *)
Theorem dependent_has_prerequisite evs :
  ∃ s, run evs initial = Some s
       ∧ (∀ b, b ∈ blocks s → type b = blockB →
               ∃ a, a ∈ blocks s ∧ type a = blockA)
       ∧ (∀ snap b, snap ∈ history s → b ∈ snap → type b = blockB →
               ∃ a, a ∈ snap ∧ type a = blockA).
Proof.
  destruct (run_good evs initial good_initial) as (s & Hrun & _ & Hb & Hh).
  exists s. split; [done|].
  assert (Hdep : ∀ l, dep_ok l → ∀ b, b ∈ l → type b = blockB →
                      ∃ a, a ∈ l ∧ type a = blockA).
  { intros l Hl b Hbl Hty.
    assert (HB : existsb (fun b => isB (type b)) l = true).
    { apply existsb_exists. exists b. rewrite <- list_elem_of_In, Hty. done. }
    apply Hl, existsb_exists in HB as (a & Ha & HA).
    exists a. rewrite list_elem_of_In. split; [done|by destruct (type a)]. }
  split; [by apply Hdep|].
  intros snap b Hsnap. apply Hdep.
  by apply (proj1 (Forall_forall _ _) Hh).
Qed.

(** ** Moving a block *)

Lemma lookup_map {A B} (f : A → B) (l : list A) (i : nat) :
  map f l !! i = f <$> l !! i.
Proof.
  revert i. induction l as [|a l IH]; intros [|i]; simpl; done.
Qed.

(** C7.  [moveBlock] leaves the snapshots and the cursor as they are and
    keeps the length and order of the live list.  At every index, a block
    whose id differs from the one given is the same block as before; a
    block with that id keeps its id, kind, label and message flag and takes
    the new coordinates.  When no block has the id, the live list is
    returned unchanged. *)
Theorem moveBlock_frame id0 x0 y0 s :
  history (moveBlock id0 x0 y0 s) = history s
  ∧ currentIndex (moveBlock id0 x0 y0 s) = currentIndex s
  ∧ length (blocks (moveBlock id0 x0 y0 s)) = length (blocks s)
  ∧ (∀ i b, blocks s !! i = Some b →
       ∃ b', blocks (moveBlock id0 x0 y0 s) !! i = Some b'
             ∧ id b' = id b ∧ type b' = type b ∧ label b' = label b
             ∧ showMessage b' = showMessage b
             ∧ (id b = id0 → x b' = x0 ∧ y b' = y0)
             ∧ (id b ≠ id0 → b' = b))
  ∧ ((∀ b, b ∈ blocks s → id b ≠ id0) →
       blocks (moveBlock id0 x0 y0 s) = blocks s).
Proof.
  split; [done|]. split; [done|]. split; [apply length_map|]. split.
  - intros i b Hib. eexists. split.
    { simpl. rewrite lookup_map, Hib. reflexivity. }
    destruct (String.eqb_spec (id b) id0) as [Heq|Hne]; simpl.
    + repeat split; done.
    + repeat split; done.
  - intros Hnone. simpl.
    induction (blocks s) as [|b bs IH]; simpl; [done|].
    destruct (String.eqb_spec (id b) id0) as [Heq|Hne].
    + destruct (Hnone b); [left|done].
    + f_equal. apply IH. intros b' Hb'. apply Hnone. by right.
Qed.

(** ** Dragging a placed block *)

(** What the hover callback writes: the coordinates are those of the
    [position] ref of the instance under the pointer, plus the offset of the
    pointer from where the drag began.  The ref is not written by the
    callback, so successive hovers of one drag do not add up. *)
Lemma hover_writes self itemId d s :
  node self = true →
  hover self itemId (Some d) s
    = moveBlock itemId ((position self).1 + d.1)%Z ((position self).2 + d.2)%Z s.
Proof. unfold hover. by intros ->. Qed.

(** Over its own element, a block that still sits where it was mounted is
    written to its own coordinates plus the offset. *)
Lemma hover_over_itself b d s :
  hover (mount b) (id b) (Some d) s
    = moveBlock (id b) (x b + d.1)%Z (y b + d.2)%Z s.
Proof. reflexivity. Qed.

(** C8.  Two blocks are placed at (0,0) and (100,100).  The first is
    dragged and the pointer, 60 right and 70 down of where the drag began,
    is over the second: the hover callback of the second block runs with
    the id of the first and writes (160,170) for the first block, the
    position of the block under the pointer plus the offset, where the
    dragged block's own start position plus the offset is (60,70). *)
Theorem hover_over_other_block :
  let X := newBlock "x" blockA 0 0 in
  let Y := newBlock "y" blockA 100 100 in
  ∃ s, run [EDrop "x" blockA 0 0; EDrop "y" blockA 100 100] initial = Some s
       ∧ blocks s = [X; Y]
       ∧ blocks (hover (mount Y) (id X) (Some (60, 70)%Z) s)
           = [newBlock "x" blockA 160 170; Y]
       ∧ (160, 170)%Z ≠ (x X + 60, y X + 70)%Z.
Proof. intros X Y. eexists. repeat split. discriminate. Qed.

(** ** Ids of placed blocks *)





(** ** The connection recomputation *)

Lemma nearestA_snoc hypot refs l a b :
  nearestA hypot refs (l ++ [a]) b
  = nearer hypot refs b (nearestA hypot refs l b) a.
Proof. unfold nearestA. by rewrite fold_left_app. Qed.

Lemma nearestA_unregistered hypot refs l b :
  refs !! id b = None → nearestA hypot refs l b = None.
Proof.
  intros Hb. induction l as [|a l IH] using rev_ind; [done|].
  rewrite nearestA_snoc, IH. unfold nearer. rewrite Hb.
  by destruct (refs !! id a).
Qed.

Lemma distance_registered hypot refs a b aRef bRef :
  refs !! id a = Some aRef → refs !! id b = Some bRef →
  distance hypot refs a b
    = Some (hypot (offsetLeft aRef - offsetLeft bRef)%Z
                  (offsetTop aRef - offsetTop bRef)%Z).
Proof. unfold distance. by intros -> ->. Qed.

Lemma distance_unregistered hypot refs a b :
  refs !! id a = None → distance hypot refs a b = None.
Proof. unfold distance. by intros ->. Qed.

Lemma lookup_snoc_Some {A} (l : list A) (a x : A) (j : nat) :
  (l ++ [a]) !! j = Some x →
  (j < length l ∧ l !! j = Some x) ∨ (j = length l ∧ x = a).
Proof.
  intros [Hl|[Hge Hs]]%lookup_app_Some.
  - left. split; [by eapply lookup_lt_Some|done].
  - right. apply list_lookup_singleton_Some in Hs as [Hj ->]. split; [lia|done].
Qed.

Lemma lessThan_spec p q :
  if lessThan p q then (p < q)%Q else (q <= p)%Q.
Proof.
  unfold lessThan. destruct (p ?= q)%Q eqn:Hc.
  - apply Qeq_alt in Hc. rewrite Hc. apply Qle_refl.
  - by apply Qlt_alt.
  - apply Qlt_le_weak. by apply Qgt_alt.
Qed.

Lemma nearestA_is_nearest hypot refs l b bRef :
  refs !! id b = Some bRef →
  is_nearest hypot refs l b (nearestA hypot refs l b).
Proof.
  intros Hb. induction l as [|a0 l IH] using rev_ind.
  { intros a Ha. by apply elem_of_nil in Ha. }
  rewrite nearestA_snoc. unfold nearer. rewrite Hb.
  destruct (refs !! id a0) as [aRef|] eqn:Ha0.
  - pose proof (distance_registered hypot refs a0 b aRef bRef Ha0 Hb) as Hd0.
    set (d0 := hypot _ _) in *.
    assert (Hlast : (l ++ [a0]) !! length l = Some a0).
    { by rewrite lookup_app_r, Nat.sub_diag by lia. }
    destruct (nearestA hypot refs l b) as [[a d]|].
    + destruct IH as (i & Hi & Hd & Hmin). simpl in *.
      pose proof (lessThan_spec d0 d) as Hcmp.
      destruct (lessThan d0 d); simpl.
      * exists (length l). split; [done|]. split; [done|].
        intros j a' d' [[Hj Hl]|[-> ->]]%lookup_snoc_Some Hd'.
        -- destruct (Hmin j a' d' Hl Hd') as [Hle _].
           assert (Hlt : (d0 < d')%Q) by (by eapply Qlt_le_trans).
           split; [by apply Qlt_le_weak|done].
        -- rewrite Hd0 in Hd'. injection Hd' as <-.
           split; [apply Qle_refl|lia].
      * exists i. split; [by apply lookup_app_l_Some|]. split; [done|].
        intros j a' d' [[Hj Hl]|[-> ->]]%lookup_snoc_Some Hd'.
        -- by apply (Hmin j a' d').
        -- rewrite Hd0 in Hd'. injection Hd' as <-.
           apply lookup_lt_Some in Hi. split; [done|lia].
    + simpl in *. exists (length l). split; [done|]. split; [done|].
      intros j a' d' [[Hj Hl]|[-> ->]]%lookup_snoc_Some Hd'.
      * rewrite distance_unregistered in Hd'; [done|].
        apply IH. by eapply list_elem_of_lookup_2.
      * rewrite Hd0 in Hd'. injection Hd' as <-.
        split; [apply Qle_refl|lia].
  - destruct (nearestA hypot refs l b) as [[a d]|].
    + destruct IH as (i & Hi & Hd & Hmin). simpl in *.
      exists i. split; [by apply lookup_app_l_Some|]. split; [done|].
      intros j a' d' [[Hj Hl]|[-> ->]]%lookup_snoc_Some Hd'.
      * by apply (Hmin j a' d').
      * by rewrite distance_unregistered in Hd'.
    + simpl in *. intros a [Ha|Ha]%elem_of_app; [by apply IH|].
      apply list_elem_of_singleton in Ha as ->. done.
Qed.

(** The [forEach] that pushes onto [newPairs] keeps the order of the
    dependent blocks and adds at most one pair for each. *)
Lemma fold_left_push {A B C} (g : A → option B) (h : B → A → C) l acc :
  fold_left (fun newPairs b =>
               match g b with Some n => newPairs ++ [h n b] | None => newPairs end)
            l acc
  = acc ++ omap (fun b => (fun n => h n b) <$> g b) l.
Proof.
  revert acc. induction l as [|b l IH]; intros acc; simpl.
  - by rewrite app_nil_r.
  - rewrite IH. destruct (g b); simpl; [|done]. by rewrite <- app_assoc.
Qed.

Lemma elem_of_List_filter {A} (p : A → bool) (l : list A) (a : A) :
  a ∈ List.filter p l ↔ a ∈ l ∧ p a = true.
Proof. rewrite !list_elem_of_In. apply filter_In. Qed.

(** C5, as the recomputation does it, for whatever [Math.hypot] returns.
    The pairs come in the order of the blocks of kind [blockB], at most one
    for each.  A [blockB] block whose element is not registered gets no
    pair.  One whose element is registered gets a pair exactly when some
    [blockA] block has a registered element, and is paired with the
    registered [blockA] block for which [Math.hypot] returned the least
    value, the earliest in the list among those with that value.  When
    every block has a registered element, each [blockB] block gets a pair
    if the list holds a [blockA] block and none otherwise. *)
Theorem updateConnections_nearest_registered hypot bs refs :
  let aBlocks := List.filter (fun b => isA (type b)) bs in
  let bBlocks := List.filter (fun b => isB (type b)) bs in
  updateConnections hypot bs refs
    = omap (fun b => (fun n => (n.1, b)) <$> nearestA hypot refs aBlocks b)
           bBlocks
  ∧ (∀ a, a ∈ aBlocks ↔ a ∈ bs ∧ type a = blockA)
  ∧ (∀ b, b ∈ bBlocks ↔ b ∈ bs ∧ type b = blockB)
  ∧ (∀ b, refs !! id b = None → nearestA hypot refs aBlocks b = None)
  ∧ (∀ b, is_Some (refs !! id b) →
          is_nearest hypot refs aBlocks b (nearestA hypot refs aBlocks b))
  ∧ ((∀ c, c ∈ bs → is_Some (refs !! id c)) →
     ∀ b, b ∈ bBlocks →
          (is_Some (nearestA hypot refs aBlocks b)
           ↔ ∃ a, a ∈ bs ∧ type a = blockA)).
Proof.
  intros aBlocks bBlocks.
  assert (HA : ∀ a, a ∈ aBlocks ↔ a ∈ bs ∧ type a = blockA).
  { intros a. unfold aBlocks. rewrite elem_of_List_filter.
    by destruct (type a); simpl; split; intros []. }
  assert (HB : ∀ b, b ∈ bBlocks ↔ b ∈ bs ∧ type b = blockB).
  { intros b. unfold bBlocks. rewrite elem_of_List_filter.
    by destruct (type b); simpl; split; intros []. }
  split.
  { unfold updateConnections.
    by rewrite (fold_left_push _ (fun n b => (n.1, b))), app_nil_l. }
  split; [done|]. split; [done|].
  split; [intros b; apply nearestA_unregistered|].
  split; [intros b [bRef Hb]; by eapply nearestA_is_nearest|].
  intros Hreg b Hb.
  destruct (Hreg b) as [bRef HbRef]; [by apply HB|].
  pose proof (nearestA_is_nearest hypot refs aBlocks b bRef HbRef) as Hn.
  destruct (nearestA hypot refs aBlocks b) as [n|]; simpl in Hn.
  - destruct Hn as (i & Hi & _). split; [|eauto].
    intros _. exists n.1. apply HA. by eapply list_elem_of_lookup_2.
  - split; [by intros [? ?]|]. intros (a & Ha & Hty).
    destruct (Hreg a Ha) as [aRef HaRef].
    rewrite Hn in HaRef; [done|]. by apply HA.
Qed.

(** C5, as stated, fails in two ways.  First, a prerequisite block and a
    dependent block are on the canvas and only the element of the first is
    registered, as when the recomputation runs before the element of a
    block just dropped is registered: no pair is emitted for the dependent
    block, whatever [Math.hypot] returns.  Second, with every element
    registered, two prerequisite blocks at (0,101) and (20,99) are both at
    distance 101 of the dependent block at (0,0), the squares being 10201
    for both; V8 returns less for the second than for the first, and the
    second, not the first inserted, is paired. *)
Lemma equal_distance_or_unregistered :
  let A := newBlock "a" blockA 10 10 in
  let B := newBlock "b" blockB 20 20 in
  let refs : gmap string HTMLDivElement := {[ "a" := mkDiv 10 10 ]} in
  let A1 := newBlock "a1" blockA 0 101 in
  let A2 := newBlock "a2" blockA 20 99 in
  let B0 := newBlock "b0" blockB 0 0 in
  let refs0 : gmap string HTMLDivElement :=
    {[ "a1" := mkDiv 0 101; "a2" := mkDiv 20 99; "b0" := mkDiv 0 0 ]} in
  (B ∈ [A; B] ∧ type B = blockB
   ∧ A ∈ [A; B] ∧ type A = blockA
   ∧ ∀ hypot, updateConnections hypot [A; B] refs = []
              ∧ ¬ ∃ a, (a, B) ∈ updateConnections hypot [A; B] refs)
  ∧ ((0 - 0) * (0 - 0) + (101 - 0) * (101 - 0)
     = (20 - 0) * (20 - 0) + (99 - 0) * (99 - 0))%Z
  ∧ (hypotV8 (20 - 0) (99 - 0) < hypotV8 (0 - 0) (101 - 0))%Q
  ∧ updateConnections hypotV8 [A1; A2; B0] refs0 = [(A2, B0)].
Proof.
  intros A B refs A1 A2 B0 refs0. split; [|split; [|split]].
  - split; [right; left|]. split; [done|]. split; [left|]. split; [done|].
    intros hypot.
    assert (Hnone : updateConnections hypot [A; B] refs = []) by done.
    split; [exact Hnone|]. rewrite Hnone.
    intros [a Ha]. by apply elem_of_nil in Ha.
  - reflexivity.
  - by vm_compute.
  - vm_compute. reflexivity.
Qed.

(** The two layouts of the connection examples, with every element
    registered at the position of its block and [Math.hypot] as V8
    computes it. *)
Example one_prerequisite_two_dependents :
  let A := newBlock "a" blockA 0 0 in
  let B1 := newBlock "b1" blockB 10 0 in
  let B2 := newBlock "b2" blockB 100 0 in
  let refs : gmap string HTMLDivElement :=
    {[ "a" := mkDiv 0 0; "b1" := mkDiv 10 0; "b2" := mkDiv 100 0 ]} in
  updateConnections hypotV8 [A; B1; B2] refs = [(A, B1); (A, B2)].
Proof. vm_compute. reflexivity. Qed.

Example nearer_prerequisite_selected :
  let A1 := newBlock "a1" blockA 0 0 in
  let A2 := newBlock "a2" blockA 50 0 in
  let B := newBlock "b" blockB 60 0 in
  let refs : gmap string HTMLDivElement :=
    {[ "a1" := mkDiv 0 0; "a2" := mkDiv 50 0; "b" := mkDiv 60 0 ]} in
  updateConnections hypotV8 [A1; A2; B] refs = [(A2, B)].
Proof. vm_compute. reflexivity. Qed.

(** Equal values are returned for mirrored offsets, and then the first
    inserted block is kept. *)
Example equal_value_first_inserted :
  let A1 := newBlock "a1" blockA 0 0 in
  let A2 := newBlock "a2" blockA 20 0 in
  let B := newBlock "b" blockB 10 0 in
  let refs : gmap string HTMLDivElement :=
    {[ "a1" := mkDiv 0 0; "a2" := mkDiv 20 0; "b" := mkDiv 10 0 ]} in
  updateConnections hypotV8 [A1; A2; B] refs = [(A1, B)].
Proof. vm_compute. reflexivity. Qed.

(** The scenario of the whole editor: a prerequisite, a dependent, undo,
    redo. *)
Example drop_drop_undo_redo :
  let A := newBlock "u1" blockA 10 10 in
  let B := newBlock "u2" blockB 20 20 in
  run [EDrop "u1" blockA 10 10; EDrop "u2" blockB 20 20; EUndo] initial
    = Some {| blocks := [A]; history := [[]; [A]; [A; B]];
              currentIndex := 1; blocksRef := [A] |}
  ∧ run [EDrop "u1" blockA 10 10; EDrop "u2" blockB 20 20; EUndo; ERedo] initial
    = Some {| blocks := [A; B]; history := [[]; [A]; [A; B]];
              currentIndex := 2; blocksRef := [A; B] |}
  ∧ (handleDropBlock "u0" blockB 5 5 initial) = (Some alertText, initial).
Proof. repeat split. Qed.

(** * Further properties of the handlers *)

(** ** The message flag *)

(** X1.  [toggleMessage] leaves the snapshots, the cursor and the ref as
    they are and keeps the length and order of the live list.  A block with
    another id is the same block as before; a block with the id keeps its
    id, kind, label and coordinates, and its flag becomes the negation of
    what it showed (an absent flag shows nothing, so it becomes [true]).
    When no block has the id, the live list is unchanged. *)
Theorem toggleMessage_frame id0 s :
  history (toggleMessage id0 s) = history s
  ∧ currentIndex (toggleMessage id0 s) = currentIndex s
  ∧ blocksRef (toggleMessage id0 s) = blocksRef s
  ∧ length (blocks (toggleMessage id0 s)) = length (blocks s)
  ∧ (∀ i b, blocks s !! i = Some b →
       ∃ b', blocks (toggleMessage id0 s) !! i = Some b'
             ∧ id b' = id b ∧ type b' = type b ∧ label b' = label b
             ∧ x b' = x b ∧ y b' = y b
             ∧ (id b = id0 →
                showMessage b' = Some (negb (truthy (showMessage b))))
             ∧ (id b ≠ id0 → b' = b))
  ∧ ((∀ b, b ∈ blocks s → id b ≠ id0) →
       blocks (toggleMessage id0 s) = blocks s).
Proof.
  split; [done|]. split; [done|]. split; [done|].
  split; [apply length_map|]. split.
  - intros i b Hib. eexists. split.
    { simpl. rewrite lookup_map, Hib. reflexivity. }
    destruct (String.eqb_spec (id b) id0) as [Heq|Hne]; simpl;
      repeat split; done.
  - intros Hnone. simpl.
    induction (blocks s) as [|b bs IH]; simpl; [done|].
    destruct (String.eqb_spec (id b) id0) as [Heq|Hne].
    + destruct (Hnone b); [left|done].
    + f_equal. apply IH. intros b' Hb'. apply Hnone. by right.
Qed.

(** X2.  Two toggles of the same id do not give back the state when a flag
    was absent (it ends as [false]), but they give back what every block
    shows and everything else about it; a third toggle gives exactly the
    state after the first. *)
Theorem toggleMessage_twice id0 s :
  toggleMessage id0 (toggleMessage id0 (toggleMessage id0 s))
    = toggleMessage id0 s
  ∧ map (fun b => truthy (showMessage b))
        (blocks (toggleMessage id0 (toggleMessage id0 s)))
    = map (fun b => truthy (showMessage b)) (blocks s)
  ∧ map withoutMessage (blocks (toggleMessage id0 (toggleMessage id0 s)))
    = map withoutMessage (blocks s)
  ∧ ((∀ b, b ∈ blocks s → showMessage b ≠ None) →
     toggleMessage id0 (toggleMessage id0 s) = s).
Proof.
  destruct s as [bl h c br]. unfold toggleMessage; simpl.
  rewrite !map_map. split; [|split; [|split]].
  - f_equal. apply map_ext. intros b.
    destruct (String.eqb (id b) id0) eqn:Heq; simpl; rewrite ?Heq; simpl;
      rewrite ?Heq; simpl; [|done].
    by destruct (showMessage b) as [[]|].
  - apply map_ext. intros b.
    destruct (String.eqb (id b) id0) eqn:Heq; simpl; rewrite ?Heq; simpl;
      [|done].
    by destruct (showMessage b) as [[]|].
  - apply map_ext. intros b.
    destruct (String.eqb (id b) id0) eqn:Heq; simpl; rewrite ?Heq; simpl;
      done.
  - intros Hdef. f_equal.
    induction bl as [|b bl IH]; simpl; [done|].
    rewrite IH by (intros b' Hb'; apply Hdef; by right). f_equal.
    assert (Hb : showMessage b ≠ None) by (apply Hdef; left).
    destruct (String.eqb (id b) id0) eqn:Heq; simpl; rewrite ?Heq; simpl;
      [|done].
    destruct b as [i t l bx by_ [[]|]]; simpl in *; done.
Qed.

(** ** Moves *)

(** X3.  A second move of the same id replaces the first: the state is the
    one the second move alone gives. *)
Theorem moveBlock_overrides id0 x1 y1 x2 y2 s :
  moveBlock id0 x2 y2 (moveBlock id0 x1 y1 s) = moveBlock id0 x2 y2 s.
Proof.
  unfold moveBlock; simpl. rewrite map_map.
  f_equal; apply map_ext; intros b;
    destruct (String.eqb (id b) id0) eqn:Heq; simpl; by rewrite Heq.
Qed.

(** X4.  Moves of two different ids can be made in either order. *)
Theorem moveBlock_commutes id1 x1 y1 id2 x2 y2 s :
  id1 ≠ id2 →
  moveBlock id1 x1 y1 (moveBlock id2 x2 y2 s)
    = moveBlock id2 x2 y2 (moveBlock id1 x1 y1 s).
Proof.
  intros Hne. unfold moveBlock; simpl. rewrite !map_map.
  f_equal; apply map_ext; intros b;
    destruct (String.eqb_spec (id b) id1) as [H1|H1];
    destruct (String.eqb_spec (id b) id2) as [H2|H2]; simpl;
    try congruence;
    repeat match goal with
           | |- context [String.eqb ?a ?b] =>
               destruct (String.eqb_spec a b); try congruence
           end.
Qed.

Lemma moveBlock_commutes_witness :
  let s := {| blocks := [newBlock "u1" blockA 1 1; newBlock "u2" blockB 2 2];
              history := [[]]; currentIndex := 0; blocksRef := [] |} in
  "u1" ≠ "u2"
  ∧ moveBlock "u1" 5 5 (moveBlock "u2" 7 7 s)
    = moveBlock "u2" 7 7 (moveBlock "u1" 5 5 s).
Proof.
  intros s.
  assert (Hne : "u1" ≠ "u2") by discriminate.
  split; [exact Hne|]. exact (moveBlock_commutes "u1" 5 5 "u2" 7 7 s Hne).
Defined.

(** ** The buttons *)

(** X6.  With the cursor inside the history, the Undo button is disabled
    exactly when [handleUndo] would return the state unchanged, and the
    Redo button exactly when [handleRedo] would. *)
Theorem buttons_match_handlers s :
  wf s →
  (undoDisabled s = true ↔ handleUndo s = Some s)
  ∧ (redoDisabled s = true ↔ handleRedo s = Some s).
Proof.
  unfold wf, undoDisabled, redoDisabled. intros Hwf. split.
  - rewrite Nat.eqb_eq. split; [apply handleUndo_at_0|].
    intros Hu. destruct (decide (currentIndex s = 0)) as [|Hpos]; [done|].
    destruct (lookup_lt_is_Some_2 (history s) (currentIndex s - 1)) as [p Hp];
      [lia|].
    rewrite (handleUndo_step s p) in Hu by (done || lia).
    injection Hu as Hu. apply (f_equal currentIndex) in Hu. simpl in Hu. lia.
  - rewrite Z.eqb_eq. split.
    + intros Hend. apply handleRedo_at_end. lia.
    + intros Hr.
      destruct (decide (currentIndex s + 1 < length (history s))) as [Hlt|]; [|lia].
      destruct (lookup_lt_is_Some_2 (history s) (currentIndex s + 1)) as [n Hn];
        [lia|].
      rewrite (handleRedo_step s n Hn) in Hr.
      injection Hr as Hr. apply (f_equal currentIndex) in Hr. simpl in Hr. lia.
Qed.

Lemma buttons_match_handlers_witness :
  let s := {| blocks := [newBlock "u1" blockA 1 1];
              history := [[]; [newBlock "u1" blockA 1 1]];
              currentIndex := 1; blocksRef := [newBlock "u1" blockA 1 1] |} in
  wf s
  ∧ (undoDisabled s = true ↔ handleUndo s = Some s)
  ∧ (redoDisabled s = true ↔ handleRedo s = Some s).
Proof.
  intros s.
  assert (Hwf : wf s) by (unfold wf; simpl; lia).
  split; [exact Hwf|]. exact (buttons_match_handlers s Hwf).
Defined.

(** ** The shape of every reachable state *)

Lemma run_app evs1 evs2 s : run (evs1 ++ evs2) s = run evs1 s ≫= run evs2.
Proof.
  revert s. induction evs1 as [|e evs1 IH]; intros s; simpl; [done|].
  destruct (dispatch e s); simpl; [apply IH|done].
Qed.

Lemma fmap_map_preserved {B} (g : Block → B) (f : Block → Block) bs :
  (∀ b, g (f b) = g b) → g <$> map f bs = g <$> bs.
Proof.
  intros Hf. induction bs as [|b bs IH]; csimpl; [done|].
  by rewrite Hf, IH.
Qed.

Lemma commit_lookup_inv nb s i snap :
  wf s → history (commit nb s) !! i = Some snap →
  (i ≤ currentIndex s ∧ history s !! i = Some snap)
  ∨ (i = S (currentIndex s) ∧ snap = nb).
Proof.
  unfold wf. intros Hwf. rewrite commit_history.
  intros [Hold|[Hge Hnew]]%lookup_app_Some.
  - left. apply lookup_take_Some in Hold as [Hold Hi]. split; [lia|done].
  - right. rewrite length_take in Hge, Hnew.
    apply list_lookup_singleton_Some in Hnew as [Hi ->]. split; [lia|done].
Qed.

Lemma tidy_initial : tidy initial.
Proof.
  unfold tidy, wf; simpl. split; [lia|]. split; [done|]. split.
  { intros [|i] snap; simpl; [by intros [= <-]|done]. }
  split; [by exists []|]. split.
  { intros [|i] snap snap'; simpl; done. }
  intros [|i] snap b; simpl; [by intros [= <-]|done].
Qed.

(** A handler that leaves the history and the cursor alone, and what the
    blocks are. *)
Lemma tidy_same_history s s' :
  history s' = history s → currentIndex s' = currentIndex s →
  ident <$> blocks s' = ident <$> blocks s → tidy s → tidy s'.
Proof.
  intros Hh Hc Hi (Hwf & Hlen & Hsn & (snap & Hs & Hid) & Hch & Hhd).
  unfold tidy, wf in *. rewrite Hh, Hc. split; [done|]. split.
  { by rewrite <- Hlen, <- (length_fmap ident (blocks s')), Hi, length_fmap. }
  split; [done|]. split; [|done].
  exists snap. split; [done|congruence].
Qed.

Lemma tidy_jump s i snap :
  tidy s → history s !! i = Some snap → tidy (jump s i snap).
Proof.
  intros (Hwf & Hlen & Hsn & _ & Hch & Hhd) Hi.
  unfold tidy, wf; simpl. split; [by eapply lookup_lt_Some|].
  split; [by apply Hsn|]. split; [done|]. split; [|done].
  by exists snap.
Qed.

Lemma tidy_commit uuid ty x0 y0 s :
  tidy s → rejects ty (blocks s) = false →
  tidy (commit (blocks s ++ [newBlock uuid ty x0 y0]) s).
Proof.
  intros (Hwf & Hlen & Hsn & (cur & Hcur & Hid) & Hch & Hhd) Hacc.
  set (nb := blocks s ++ [newBlock uuid ty x0 y0]).
  pose proof (commit_index_wf nb s Hwf) as Hidx.
  pose proof (commit_lookup_inv nb s) as Hinv.
  assert (Hnblen : length nb = S (currentIndex s)).
  { unfold nb. rewrite length_app; simpl. lia. }
  unfold tidy. split; [apply commit_wf|].
  split; [by rewrite Hidx|]. split.
  { intros i snap Hi.
    destruct (Hinv i snap Hwf Hi) as [[_ Hold]|[-> ->]]; [by apply Hsn|done]. }
  split.
  { exists nb. split; [apply commit_cursor|done]. }
  split.
  { intros i snap snap' Hi HSi.
    destruct (Hinv i snap Hwf Hi) as [[Hle Hold]|[-> _]].
    - destruct (Hinv (S i) snap' Hwf HSi) as [[_ Hold']|[Heq ->]].
      + by apply (Hch i).
      + injection Heq as ->.
        assert (snap = cur) as -> by congruence.
        exists (newBlock uuid ty x0 y0). unfold nb. by rewrite fmap_snoc, Hid.
    - destruct (Hinv _ snap' Hwf HSi) as [[Hle _]|[Heq _]]; lia. }
  intros i snap b Hi.
  destruct (Hinv i snap Hwf Hi) as [[_ Hold]|[-> ->]]; [by apply (Hhd i)|].
  unfold nb. destruct (blocks s) as [|b0 bs] eqn:Hbs; simpl.
  - intros [= <-]. simpl. unfold rejects in Hacc. simpl in Hacc.
    by destruct ty.
  - intros [= <-].
    destruct cur as [|c0 cur]; [done|]. csimpl in Hid.
    injection Hid as _ Hty _ _.
    rewrite Hty. by apply (Hhd (currentIndex s) (c0 :: cur)).
Qed.

Lemma tidy_dispatch e s s' : tidy s → dispatch e s = Some s' → tidy s'.
Proof.
  intros Hs. destruct e as [uuid ty x0 y0|id0 x0 y0|id0| |]; simpl.
  - intros [= <-]. unfold handleDropBlock.
    destruct (rejects ty (blocks s)) eqn:Hr; cbn [snd]; [done|].
    by apply tidy_commit.
  - intros [= <-]. apply (tidy_same_history s); [done|done| |done].
    simpl. apply fmap_map_preserved. intros b. by destruct (String.eqb _ _).
  - intros [= <-]. apply (tidy_same_history s); [done|done| |done].
    simpl. apply fmap_map_preserved. intros b. by destruct (String.eqb _ _).
  - unfold handleUndo. destruct (0 <? currentIndex s); [|by intros [= <-]].
    destruct (history s !! (currentIndex s - 1)) as [p|] eqn:Hp; simpl; [|done].
    intros [= <-]. by apply (tidy_jump s _ p).
  - unfold handleRedo. destruct (_ <? _); [|by intros [= <-]].
    destruct (history s !! (currentIndex s + 1)) as [p|] eqn:Hp; simpl; [|done].
    intros [= <-]. by apply (tidy_jump s _ p).
Qed.

Lemma tidy_wf s : tidy s → wf s.
Proof. by intros (Hwf & _). Qed.

Lemma run_tidy evs s : tidy s → ∃ s', run evs s = Some s' ∧ tidy s'.
Proof.
  revert s. induction evs as [|e evs IH]; intros s Hs; simpl; [eauto|].
  assert (He : is_Some (dispatch e s)).
  { destruct e; simpl; eauto using handleRedo_total, handleUndo_total, tidy_wf. }
  destruct He as [s1 He]. rewrite He; simpl.
  apply IH. by eapply tidy_dispatch.
Qed.

Lemma run_invariant (P : Home → Prop) :
  (∀ e s s', P s → dispatch e s = Some s' → P s') →
  ∀ evs s s', P s → run evs s = Some s' → P s'.
Proof.
  intros Hstep evs. induction evs as [|e evs IH]; intros s s' Hs; simpl.
  - by intros [= <-].
  - destruct (dispatch e s) as [s1|] eqn:He; simpl; [|done].
    apply IH. by eapply Hstep.
Qed.

(** X7.  Every sequence of events from the initial state runs to a state
    whose cursor is inside the history, whose live list has exactly as many
    blocks as the cursor says, and whose snapshot at index [i] has exactly
    [i] blocks; in particular snapshot 0 is the empty canvas. *)
Theorem blocks_count_is_cursor evs :
  ∃ s, run evs initial = Some s
       ∧ currentIndex s < length (history s)
       ∧ length (blocks s) = currentIndex s
       ∧ (∀ i snap, history s !! i = Some snap → length snap = i)
       ∧ history s !! 0 = Some [].
Proof.
  destruct (run_tidy evs initial tidy_initial)
    as (s & Hrun & Hwf & Hlen & Hsn & _).
  exists s. repeat split; try done.
  unfold wf in Hwf.
  destruct (lookup_lt_is_Some_2 (history s) 0) as [snap Hsnap]; [lia|].
  rewrite Hsnap. f_equal. apply nil_length_inv. by apply Hsn.
Qed.

(** X8.  In every state a run reaches, an undo that moves the cursor takes
    away the last block of the live list and keeps the others, by id, kind
    and label and in order; a redo that moves the cursor adds one block at
    the end and keeps the others. *)
Theorem undo_removes_last_placed evs :
  ∃ s, run evs initial = Some s
       ∧ (0 < currentIndex s →
          ∃ u b, handleUndo s = Some u
                 ∧ currentIndex u = currentIndex s - 1
                 ∧ ident <$> blocks s = (ident <$> blocks u) ++ [ident b])
       ∧ (currentIndex s + 1 < length (history s) →
          ∃ r b, handleRedo s = Some r
                 ∧ currentIndex r = currentIndex s + 1
                 ∧ ident <$> blocks r = (ident <$> blocks s) ++ [ident b]).
Proof.
  destruct (run_tidy evs initial tidy_initial)
    as (s & Hrun & Hwf & Hlen & Hsn & (cur & Hcur & Hid) & Hch & _).
  exists s. split; [done|]. unfold wf in Hwf. split.
  - intros Hpos.
    destruct (lookup_lt_is_Some_2 (history s) (currentIndex s - 1)) as [p Hp];
      [lia|].
    destruct (Hch (currentIndex s - 1) p cur Hp) as [b Hb].
    { by replace (S (currentIndex s - 1)) with (currentIndex s) by lia. }
    eexists _, b. split; [by apply (handleUndo_step s p)|].
    split; [done|]. simpl. by rewrite Hid.
  - intros Hlt.
    destruct (lookup_lt_is_Some_2 (history s) (currentIndex s + 1)) as [n Hn];
      [lia|].
    destruct (Hch (currentIndex s) cur n Hcur) as [b Hb].
    { by rewrite <- Nat.add_1_r. }
    eexists _, b. split; [by apply (handleRedo_step s n)|].
    split; [done|]. simpl. by rewrite Hid.
Qed.

(** X9.  In every state a run reaches, the first block of the live list,
    if there is one, is of kind [blockA]; the live list is empty exactly
    when the cursor is 0; and a drop of kind [blockB] is turned down, with
    the alert and the state unchanged, exactly when the canvas is empty. *)
Theorem first_block_is_prerequisite evs :
  ∃ s, run evs initial = Some s
       ∧ (∀ b, blocks s !! 0 = Some b → type b = blockA)
       ∧ (blocks s = [] ↔ currentIndex s = 0)
       ∧ (∀ uuid x0 y0,
            handleDropBlock uuid blockB x0 y0 s = (Some alertText, s)
            ↔ blocks s = []).
Proof.
  destruct (run_tidy evs initial tidy_initial)
    as (s & Hrun & Hwf & Hlen & Hsn & (cur & Hcur & Hid) & Hch & Hhd).
  exists s. split; [done|].
  assert (Hfirst : ∀ b, blocks s !! 0 = Some b → type b = blockA).
  { intros b Hb.
    assert (Hc : (ident <$> cur) !! 0 = Some (ident b)).
    { by rewrite <- Hid, list_lookup_fmap, Hb. }
    apply list_lookup_fmap_Some in Hc as (c0 & Hc & Hc0).
    unfold ident in Hc. injection Hc as _ Hty _. rewrite Hty.
    by apply (Hhd (currentIndex s) cur). }
  split; [done|]. split.
  { rewrite <- Hlen. split; [by intros ->|apply nil_length_inv]. }
  intros uuid x0 y0. unfold handleDropBlock, rejects; simpl.
  destruct (blocks s) as [|b0 bs] eqn:Hbs; simpl; [done|].
  rewrite (Hfirst b0 eq_refl). simpl. split; [|done]. by intros [=].
Qed.

(** ** Several undos and redos in a row *)

Lemma run_undos_tidy n s :
  tidy s →
  ∃ s', run (replicate n EUndo) s = Some s' ∧ tidy s'
        ∧ currentIndex s' = currentIndex s - n ∧ history s' = history s.
Proof.
  revert s. induction n as [|n IH]; intros s Hs; simpl.
  { exists s. split; [done|]. split; [done|]. split; [lia|done]. }
  destruct (decide (currentIndex s = 0)) as [Hz|Hpos].
  - rewrite handleUndo_at_0 by done. simpl.
    destruct (IH s Hs) as (s' & Hrun & Ht & Hc & Hh).
    exists s'. split; [done|]. split; [done|]. split; [lia|done].
  - pose proof (tidy_wf s Hs) as Hwf. unfold wf in Hwf.
    destruct (lookup_lt_is_Some_2 (history s) (currentIndex s - 1)) as [p Hp];
      [lia|].
    rewrite (handleUndo_step s p) by (done || lia). simpl.
    destruct (IH (jump s (currentIndex s - 1) p)) as (s' & Hrun & Ht & Hc & Hh).
    { by apply tidy_jump. }
    exists s'. split; [exact Hrun|]. split; [done|]. simpl in *.
    split; [lia|done].
Qed.

(** X10.  From every state a run reaches, at least as many undos as the
    cursor counts lead to the empty canvas with the cursor at 0, and the
    snapshots are all still there. *)
Theorem undo_to_the_start evs n :
  ∃ s, run evs initial = Some s
       ∧ (currentIndex s ≤ n →
          ∃ s', run (replicate n EUndo) s = Some s'
                ∧ blocks s' = [] ∧ currentIndex s' = 0
                ∧ history s' = history s).
Proof.
  destruct (run_tidy evs initial tidy_initial) as (s & Hrun & Hs).
  exists s. split; [done|]. intros Hn.
  destruct (run_undos_tidy n s Hs) as (s' & Hrun' & Ht & Hc & Hh).
  exists s'. split; [done|].
  destruct Ht as (_ & Hlen & _).
  split; [apply nil_length_inv; lia|]. split; [lia|done].
Qed.

Lemma run_undos k : ∀ s p,
  k < currentIndex s → wf s →
  history s !! (currentIndex s - S k) = Some p →
  run (replicate (S k) EUndo) s = Some (jump s (currentIndex s - S k) p).
Proof.
  induction k as [|k IH]; intros s p Hk Hwf Hp.
  - simpl. rewrite (handleUndo_step s p) by (done || lia). done.
  - unfold wf in Hwf.
    destruct (lookup_lt_is_Some_2 (history s) (currentIndex s - 1)) as [p1 Hp1];
      [lia|].
    rewrite replicate_S. cbn [run dispatch].
    rewrite (handleUndo_step s p1) by (done || lia). cbn [mbind option_bind].
    change (run (replicate (S k) EUndo) (jump s (currentIndex s - 1) p1)
            = Some (jump s (currentIndex s - S (S k)) p)).
    rewrite (IH (jump s (currentIndex s - 1) p1) p); simpl.
    + unfold jump; simpl. do 2 f_equal. lia.
    + lia.
    + unfold wf; simpl. lia.
    + replace (currentIndex s - 1 - S k) with (currentIndex s - S (S k)) by lia.
      done.
Qed.

Lemma run_redos k : ∀ s q,
  history s !! (currentIndex s + S k) = Some q →
  run (replicate (S k) ERedo) s = Some (jump s (currentIndex s + S k) q).
Proof.
  induction k as [|k IH]; intros s q Hq.
  - simpl. rewrite (handleRedo_step s q) by done. done.
  - apply lookup_lt_Some in Hq as Hlt.
    destruct (lookup_lt_is_Some_2 (history s) (currentIndex s + 1)) as [q1 Hq1];
      [lia|].
    rewrite replicate_S. cbn [run dispatch].
    rewrite (handleRedo_step s q1) by done. cbn [mbind option_bind].
    change (run (replicate (S k) ERedo) (jump s (currentIndex s + 1) q1)
            = Some (jump s (currentIndex s + S (S k)) q)).
    rewrite (IH (jump s (currentIndex s + 1) q1) q); simpl.
    + unfold jump; simpl. do 2 f_equal. lia.
    + replace (currentIndex s + 1 + S k) with (currentIndex s + S (S k)) by lia.
      done.
Qed.

(** X11.  From any state whose cursor is on a snapshot, [k] undos followed
    by [k] redos, for [k] between 1 and the cursor, return with the same
    snapshots and the same cursor, and with that snapshot as the live list
    and the ref: moves and flags set since the snapshot was stored are
    gone. *)
Theorem undos_then_redos s k snap :
  0 < k → k ≤ currentIndex s →
  history s !! currentIndex s = Some snap →
  run (replicate k EUndo ++ replicate k ERedo) s
    = Some {| blocks := snap; history := history s;
              currentIndex := currentIndex s; blocksRef := snap |}.
Proof.
  intros Hpos Hk Hsnap.
  apply lookup_lt_Some in Hsnap as Hwf.
  destruct k as [|k]; [lia|].
  destruct (lookup_lt_is_Some_2 (history s) (currentIndex s - S k)) as [p Hp];
    [lia|].
  rewrite run_app, (run_undos k s p) by (done || lia).
  cbn [mbind option_bind].
  rewrite (run_redos k (jump s (currentIndex s - S k) p) snap); simpl.
  - unfold jump; simpl. do 2 f_equal. lia.
  - by replace (currentIndex s - S k + S k) with (currentIndex s) by lia.
Qed.

Lemma undos_then_redos_witness :
  let A := newBlock "u1" blockA 10 10 in
  let B := newBlock "u2" blockB 20 20 in
  let s := {| blocks := [newBlock "u1" blockA 30 40; B];
              history := [[]; [A]; [A; B]];
              currentIndex := 2; blocksRef := [newBlock "u1" blockA 30 40; B] |} in
  0 < 2 ∧ 2 ≤ currentIndex s
  ∧ history s !! currentIndex s = Some [A; B]
  ∧ run (replicate 2 EUndo ++ replicate 2 ERedo) s
    = Some {| blocks := [A; B]; history := history s;
              currentIndex := currentIndex s; blocksRef := [A; B] |}.
Proof.
  intros A B s.
  assert (H1 : 0 < 2) by lia.
  assert (H2 : 2 ≤ currentIndex s) by (simpl; lia).
  assert (H3 : history s !! currentIndex s = Some [A; B]) by reflexivity.
  split; [exact H1|]. split; [exact H2|]. split; [exact H3|].
  exact (undos_then_redos s 2 [A; B] H1 H2 H3).
Defined.

(** ** The ref beside the live list *)

(** X12.  In every state a run reaches, the list in [blocksRef] holds the
    same blocks at the same coordinates as the live list; only message
    flags can differ, since [toggleMessage] does not write the ref. *)
Theorem ref_mirrors_live_list evs :
  ∃ s, run evs initial = Some s
       ∧ map withoutMessage (blocksRef s) = map withoutMessage (blocks s).
Proof.
  destruct (run_tidy evs initial tidy_initial) as (s & Hrun & _).
  exists s. split; [done|].
  apply (run_invariant
           (fun s => map withoutMessage (blocksRef s)
                     = map withoutMessage (blocks s))) with evs initial;
    [|done|done].
  clear. intros e s s' Hs.
  destruct e as [uuid ty x0 y0|id0 x0 y0|id0| |]; simpl.
  - intros [= <-]. unfold handleDropBlock.
    by destruct (rejects ty (blocks s)).
  - by intros [= <-].
  - intros [= <-]. simpl. rewrite Hs, map_map. apply map_ext.
    intros b. by destruct (String.eqb _ _).
  - unfold handleUndo. destruct (0 <? currentIndex s); [|by intros [= <-]].
    destruct (history s !! _); simpl; [by intros [= <-]|done].
  - unfold handleRedo. destruct (_ <? _); [|by intros [= <-]].
    destruct (history s !! _); simpl; [by intros [= <-]|done].
Qed.

(** After a toggle the ref still holds the block without the flag. *)
Example toggle_leaves_ref_behind :
  ∃ s, run [EDrop "u1" blockA 10 10; EToggle "u1"] initial = Some s
       ∧ showMessage <$> blocks s = [Some true]
       ∧ showMessage <$> blocksRef s = [None].
Proof. eexists. by repeat split. Qed.

(** ** The pairs of the connection recomputation *)

Lemma updateConnections_omap hypot bs refs :
  updateConnections hypot bs refs
  = omap (fun b =>
            (fun n => (n.1, b))
              <$> nearestA hypot refs
                    (List.filter (fun b => isA (type b)) bs) b)
         (List.filter (fun b => isB (type b)) bs).
Proof.
  unfold updateConnections.
  by rewrite (fold_left_push _ (fun n b => (n.1, b))), app_nil_l.
Qed.

Lemma snd_omap_sublist {A B C} (g : A → option B) (h : B → C) (l : list A) :
  snd <$> omap (fun b => (fun n => (h n, b)) <$> g b) l `sublist_of` l.
Proof.
  induction l as [|b l IH]; csimpl; [constructor|].
  destruct (g b); csimpl; by constructor.
Qed.

Lemma snd_omap_all {A B C} (g : A → option B) (h : B → C) (l : list A) :
  (∀ b, b ∈ l → is_Some (g b)) →
  snd <$> omap (fun b => (fun n => (h n, b)) <$> g b) l = l.
Proof.
  induction l as [|b l IH]; intros Hall; csimpl; [done|].
  destruct (Hall b) as [n Hn]; [left|]. rewrite Hn; csimpl.
  f_equal. apply IH. intros b' Hb'. apply Hall. by right.
Qed.

Lemma nearestA_Some_registered hypot refs l b n :
  nearestA hypot refs l b = Some n →
  n.1 ∈ l ∧ is_Some (refs !! id n.1) ∧ is_Some (refs !! id b).
Proof.
  intros Hn.
  destruct (refs !! id b) as [bRef|] eqn:Hb.
  - pose proof (nearestA_is_nearest hypot refs l b bRef Hb) as Hnear.
    rewrite Hn in Hnear. destruct Hnear as (i & Hi & Hd & _).
    split; [by eapply list_elem_of_lookup_2|]. split; [|eauto].
    unfold distance in Hd. destruct (refs !! id n.1); [eauto|done].
  - by rewrite nearestA_unregistered in Hn.
Qed.

(** X13.  The pairs of a recomputation follow the order of the [blockB]
    blocks of the list and hold each of them at most once, so there are no
    more pairs than such blocks.  Every pair joins a [blockA] block of the
    list to a [blockB] block of the list, and both have a registered
    element. *)
Theorem pairs_join_blocks_of_the_list hypot bs refs :
  snd <$> updateConnections hypot bs refs
    `sublist_of` List.filter (fun b => isB (type b)) bs
  ∧ length (updateConnections hypot bs refs)
      ≤ length (List.filter (fun b => isB (type b)) bs)
  ∧ (∀ a b, (a, b) ∈ updateConnections hypot bs refs →
       a ∈ bs ∧ type a = blockA ∧ b ∈ bs ∧ type b = blockB
       ∧ is_Some (refs !! id a) ∧ is_Some (refs !! id b)).
Proof.
  rewrite updateConnections_omap.
  assert (Hsub := snd_omap_sublist
            (nearestA hypot refs (List.filter (fun b => isA (type b)) bs))
            (fun n : Block * Q => n.1)
            (List.filter (fun b => isB (type b)) bs)).
  split; [exact Hsub|]. split.
  { apply sublist_length in Hsub. by rewrite length_fmap in Hsub. }
  intros a b (b' & Hb' & Hpair)%list_elem_of_omap.
  destruct (nearestA _ _ _ b') as [n|] eqn:Hn; [|done].
  injection Hpair as <- <-.
  apply nearestA_Some_registered in Hn as (Ha & HaR & HbR).
  apply elem_of_List_filter in Ha as [Ha HA].
  apply elem_of_List_filter in Hb' as [Hb' HB].
  repeat split; try done.
  - by destruct (type n.1).
  - by destruct (type b').
Qed.

(** ** Registering the elements *)

Lemma registerAll_snoc current bs b refs :
  registerAll current (bs ++ [b]) refs
  = registerEffect b (current b) (registerAll current bs refs).
Proof. unfold registerAll. by rewrite fold_left_app. Qed.

Lemma registerEffect_keeps b cur (refs : gmap string HTMLDivElement) k :
  is_Some (refs !! k) → is_Some (registerEffect b cur refs !! k).
Proof.
  intros Hk. destruct cur as [el|]; simpl; [|done].
  apply lookup_insert_is_Some. destruct (decide (id b = k)); auto.
Qed.

Lemma registerAll_keeps current bs (refs : gmap string HTMLDivElement) k :
  is_Some (refs !! k) → is_Some (registerAll current bs refs !! k).
Proof.
  intros Hk. induction bs as [|b bs IH] using rev_ind; [done|].
  rewrite registerAll_snoc. by apply registerEffect_keeps.
Qed.

Lemma registerAll_registers current bs (refs : gmap string HTMLDivElement) b :
  b ∈ bs → is_Some (current b) → is_Some (registerAll current bs refs !! id b).
Proof.
  intros Hb Hcur. induction bs as [|b0 bs IH] using rev_ind.
  { by apply elem_of_nil in Hb. }
  rewrite registerAll_snoc.
  apply elem_of_app in Hb as [Hb|Hb].
  - apply registerEffect_keeps. by apply IH.
  - apply list_elem_of_singleton in Hb as ->.
    destruct Hcur as [el ->]. simpl. apply lookup_insert_is_Some. by left.
Qed.

Lemma registerAll_elsewhere current bs (refs : gmap string HTMLDivElement) k :
  k ∉ id <$> bs → registerAll current bs refs !! k = refs !! k.
Proof.
  intros Hk. induction bs as [|b bs IH] using rev_ind; [done|].
  rewrite fmap_app in Hk. apply not_elem_of_app in Hk as [Hk Hb].
  rewrite registerAll_snoc. unfold registerEffect, registerRef.
  destruct (current b); [|by apply IH].
  rewrite lookup_insert_ne; [by apply IH|].
  intros Heq. apply Hb. csimpl. rewrite Heq. left.
Qed.

(** X14.  Once the effects of the rendered blocks have run, each with a
    node, every block of the list has a registered element; ids that were
    registered before stay registered (no effect removes one), and ids of
    no block of the list read as before.  A recomputation made then gives a
    pair to every [blockB] block, in order, when the list holds a [blockA]
    block, and no pair at all when it holds none. *)
Theorem registered_blocks_are_connected hypot current bs refs :
  (∀ b, b ∈ bs → is_Some (current b)) →
  let refs' := registerAll current bs refs in
  (∀ b, b ∈ bs → is_Some (refs' !! id b))
  ∧ (∀ k, is_Some (refs !! k) → is_Some (refs' !! k))
  ∧ (∀ k, k ∉ id <$> bs → refs' !! k = refs !! k)
  ∧ ((∃ a, a ∈ bs ∧ type a = blockA) →
     snd <$> updateConnections hypot bs refs'
       = List.filter (fun b => isB (type b)) bs)
  ∧ ((∀ a, a ∈ bs → type a ≠ blockA) →
     updateConnections hypot bs refs' = []).
Proof.
  intros Hcur refs'.
  assert (Hreg : ∀ b, b ∈ bs → is_Some (refs' !! id b)).
  { intros b Hb. apply registerAll_registers; [done|by apply Hcur]. }
  split; [done|]. split; [intros k; apply registerAll_keeps|].
  split; [intros k; apply registerAll_elsewhere|].
  rewrite updateConnections_omap. split.
  - intros (a & Ha & HA). apply snd_omap_all.
    intros b [Hb HB]%elem_of_List_filter.
    destruct (Hreg b Hb) as [bRef HbRef].
    pose proof (nearestA_is_nearest hypot refs'
                  (List.filter (fun b => isA (type b)) bs) b bRef HbRef) as Hn.
    destruct (nearestA _ _ _ b) as [n|]; [eauto|]. simpl in Hn.
    destruct (Hreg a Ha) as [aRef HaRef].
    rewrite Hn in HaRef; [done|].
    apply elem_of_List_filter. by rewrite HA.
  - intros Hnone.
    assert (Hempty : List.filter (fun b => isA (type b)) bs = []).
    { apply elem_of_nil_inv. intros a [Ha HA]%elem_of_List_filter.
      apply (Hnone a Ha). by destruct (type a). }
    rewrite Hempty.
    induction (List.filter (fun b => isB (type b)) bs) as [|b l IH]; done.
Qed.

Lemma registered_blocks_are_connected_witness :
  let A := newBlock "a" blockA 0 0 in
  let B := newBlock "b" blockB 10 0 in
  let current := fun b : Block => Some (mkDiv (x b) (y b)) in
  (∀ b, b ∈ [A; B] → is_Some (current b))
  ∧ snd <$> updateConnections hypotV8 [A; B] (registerAll current [A; B] ∅)
    = [B].
Proof.
  intros A B current.
  assert (Hcur : ∀ b, b ∈ [A; B] → is_Some (current b)).
  { intros b _. exists (mkDiv (x b) (y b)). reflexivity. }
  split; [exact Hcur|].
  destruct (registered_blocks_are_connected hypotV8 current [A; B] ∅ Hcur)
    as (_ & _ & _ & Hall & _).
  apply Hall. exists A. split; [left|reflexivity].
Defined.

(** ** Hover and drop on a placed block *)

(** X15.  During one drag over one target, a later hover replaces what an
    earlier one wrote: the state after both is the state the later hover
    alone gives, whatever the earlier offset was.  Offsets of successive
    hovers are never added up. *)
Theorem hover_last_wins self itemId d1 d2 s :
  hover self itemId (Some d2) (hover self itemId d1 s)
    = hover self itemId (Some d2) s.
Proof.
  unfold hover. destruct (node self); simpl; [|done].
  destruct d1 as [d1|]; [|done].
  unfold moveBlock; simpl. rewrite map_map.
  f_equal; apply map_ext; intros b;
    destruct (String.eqb (id b) itemId) eqn:Heq; simpl; by rewrite Heq.
Qed.

(** X16.  When the drop callback runs on the instance whose hover callback
    ran last, with the same offset, the [position] ref of that instance
    ends up equal to the coordinates the hover wrote to the dragged block;
    the ref is only written by a drop, and a missing offset changes neither
    the state nor the ref. *)
Theorem drop_after_hover_keeps_ref self itemId d s :
  node self = true →
  (∀ b, b ∈ blocks (hover self itemId (Some d) s) → id b = itemId →
        (x b, y b) = position (dropOn self (Some d)))
  ∧ (∀ b, b ∈ blocks s → id b ≠ itemId →
          b ∈ blocks (hover self itemId (Some d) s))
  ∧ block (dropOn self (Some d)) = block self
  ∧ hover self itemId None s = s
  ∧ dropOn self None = self.
Proof.
  intros Hnode. unfold hover. rewrite Hnode. simpl.
  split; [|split; [|split; [done|split; [done|done]]]].
  - intros b Hb Hid. apply list_elem_of_In, in_map_iff in Hb as (b0 & <- & _).
    destruct (String.eqb_spec (id b0) itemId) as [Heq|Hne]; [done|].
    by destruct Hne.
  - intros b Hb Hne. apply list_elem_of_In, in_map_iff.
    exists b. split; [|by apply list_elem_of_In].
    by destruct (String.eqb_spec (id b) itemId).
Qed.

Lemma drop_after_hover_keeps_ref_witness :
  let A := newBlock "u1" blockA 10 10 in
  let s := {| blocks := [A]; history := [[]; [A]];
              currentIndex := 1; blocksRef := [A] |} in
  node (mount A) = true
  ∧ position (dropOn (mount A) (Some (5, 7)%Z)) = (15, 17)%Z
  ∧ ∀ b, b ∈ blocks (hover (mount A) "u1" (Some (5, 7)%Z) s) → id b = "u1" →
         (x b, y b) = position (dropOn (mount A) (Some (5, 7)%Z)).
Proof.
  intros A s.
  assert (Hnode : node (mount A) = true) by reflexivity.
  split; [exact Hnode|]. split; [reflexivity|].
  exact (proj1 (drop_after_hover_keeps_ref (mount A) "u1" (5, 7)%Z s Hnode)).
Defined.

(** * The drafts *)

Module DraftFacts.
Import Draft.

Lemma draft_dep_ok_accepted (bs : list Block) (block : Block) :
  (String.eqb (id block) "blockB"
   && negb (existsb (String.eqb "blockA") (map id bs))) = false →
  dep_ok bs → dep_ok (bs ++ [block]).
Proof.
  unfold dep_ok. intros Hacc Hbs.
  rewrite !map_app, !existsb_app. cbn [map existsb]. rewrite !orb_false_r.
  destruct (existsb (String.eqb "blockA") (map id bs)) eqn:HA; [done|].
  cbn [negb] in Hacc. rewrite andb_true_r in Hacc.
  destruct (existsb (String.eqb "blockB") (map id bs)) eqn:HB;
    [specialize (Hbs eq_refl); congruence|].
  cbn [orb]. by rewrite String.eqb_sym, Hacc.
Qed.

Lemma steady_initial : steady initial.
Proof.
  unfold steady; simpl. split; [done|]. split; [done|].
  repeat constructor. by unfold dep_ok.
Qed.

Lemma steady_dep_ok s : steady s → dep_ok (blocks s).
Proof.
  intros (_ & Hcur & Hh). by apply (Forall_lookup_1 _ _ _ _ Hh Hcur).
Qed.

(** What a drop does, in full: the first render's history [[[]]] and cursor
    0 give the history [[[]; newBlocks]] and the cursor 1 whatever the
    history was. *)
Lemma onDropBlock_cases block s :
  let turned_down :=
    String.eqb (id block) "blockB"
    && negb (existsb (String.eqb "blockA") (map id (blocksRef s))) in
  let newBlocks := blocksRef s ++ [block] in
  (turned_down = true ∧ onDropBlock block s = (Some alertText, s))
  ∨ (turned_down = false
     ∧ onDropBlock block s
       = (None, {| blocks := newBlocks; history := [[]; newBlocks];
                   currentIndex := 1; blocksRef := newBlocks |})).
Proof.
  intros turned_down newBlocks. unfold onDropBlock, handleDropBlock.
  change (blocksRef (firstRender s)) with (blocksRef s).
  fold turned_down. destruct turned_down; [by left|by right].
Qed.

Lemma steady_dispatch e s :
  steady s → ∃ s', dispatch e s = Some s' ∧ steady s'.
Proof.
  intros Hs. pose proof (steady_dep_ok s Hs) as Hdep.
  destruct Hs as (Href & Hcur & Hh).
  apply lookup_lt_Some in Hcur as Hwf.
  destruct e as [block| |]; simpl.
  - eexists. split; [done|].
    destruct (onDropBlock_cases block s) as [[_ ->]|[Hr ->]]; cbn [snd]; [done|].
    unfold steady; cbn [blocks history currentIndex blocksRef].
    split; [done|]. split; [done|].
    repeat constructor; [by unfold dep_ok|].
    apply draft_dep_ok_accepted; [done|by rewrite Href].
  - unfold handleUndo.
    destruct (Nat.ltb_spec 0 (currentIndex s)); [|by exists s].
    destruct (lookup_lt_is_Some_2 (history s) (currentIndex s - 1)) as [p Hp];
      [lia|].
    rewrite Hp; simpl. eexists. split; [done|]. by unfold steady.
  - unfold handleRedo.
    destruct (Nat.ltb_spec (currentIndex s) (length (history s) - 1));
      [|by exists s].
    destruct (lookup_lt_is_Some_2 (history s) (currentIndex s + 1)) as [p Hp];
      [lia|].
    rewrite Hp; simpl. eexists. split; [done|]. by unfold steady.
Qed.

Lemma run_steady evs s : steady s → ∃ s', run evs s = Some s' ∧ steady s'.
Proof.
  revert s. induction evs as [|e evs IH]; intros s Hs; simpl; [eauto|].
  destruct (steady_dispatch e s Hs) as (s1 & He & Hs1).
  rewrite He; simpl. by apply IH.
Qed.

(** X17.  In the drafts, every sequence of drops, undos and redos from the
    initial state runs to a state where the ref, the live list and the
    snapshot under the cursor are the same list: the test that
    [handleDropBlock] makes on the ref is a test on what the canvas
    shows. *)
Theorem draft_ref_is_live_list evs :
  ∃ s, run evs initial = Some s
       ∧ blocksRef s = blocks s
       ∧ history s !! currentIndex s = Some (blocks s).
Proof.
  destruct (run_steady evs initial steady_initial) as (s & Hrun & Href & Hcur & _).
  by exists s.
Qed.

(** X18.  In the drafts, in every state a run reaches, the live list and
    every snapshot that holds a block with id "blockB" holds one with id
    "blockA". *)
Theorem draft_dependency_rule evs :
  ∃ s, run evs initial = Some s
       ∧ ("blockB" ∈ id <$> blocks s → "blockA" ∈ id <$> blocks s)
       ∧ (∀ snap, snap ∈ history s →
            "blockB" ∈ id <$> snap → "blockA" ∈ id <$> snap).
Proof.
  destruct (run_steady evs initial steady_initial) as (s & Hrun & Hs).
  pose proof (steady_dep_ok s Hs) as Hlive.
  destruct Hs as (_ & _ & Hh).
  exists s. split; [done|].
  assert (Hdep : ∀ l : list Block, dep_ok l →
                 "blockB" ∈ id <$> l → "blockA" ∈ id <$> l).
  { intros l Hl HB.
    assert (Hex : ∀ k (ks : list string),
              k ∈ ks ↔ existsb (String.eqb k) ks = true).
    { intros k ks. rewrite existsb_exists, list_elem_of_In.
      split; [intros Hk; exists k; by rewrite String.eqb_refl|].
      by intros (k' & Hk' & ->%String.eqb_eq). }
    assert (Hmap : ∀ l0 : list Block, id <$> l0 = map id l0).
    { intros l0. induction l0 as [|b l0 IH]; csimpl; [done|]. by rewrite IH. }
    rewrite Hmap in *. apply Hex, Hl, Hex, HB. }
  split; [by apply Hdep|].
  intros snap Hsnap. apply Hdep. by apply (proj1 (Forall_forall _ _) Hh).
Qed.

Lemma draft_run_invariant (P : Home → Prop) :
  (∀ e s s', P s → dispatch e s = Some s' → P s') →
  ∀ evs s s', P s → run evs s = Some s' → P s'.
Proof.
  intros Hstep evs. induction evs as [|e evs IH]; intros s s' Hs; simpl.
  - by intros [= <-].
  - destruct (dispatch e s) as [s1|] eqn:He; simpl; [|done].
    apply IH. by eapply Hstep.
Qed.

Lemma short_dispatch e s s' : short s → dispatch e s = Some s' → short s'.
Proof.
  intros [Hh Hc]. destruct e as [block| |]; simpl.
  - intros [= <-].
    destruct (onDropBlock_cases block s) as [[_ ->]|[_ ->]]; cbn [snd]; [done|].
    unfold short; simpl. split; [right; eauto|lia].
  - unfold handleUndo.
    destruct (Nat.ltb_spec 0 (currentIndex s)); [|by intros [= <-]].
    destruct (history s !! _); simpl; [|done].
    intros [= <-]. unfold short; simpl. split; [done|lia].
  - unfold handleRedo.
    destruct (Nat.ltb_spec (currentIndex s) (length (history s) - 1));
      [|by intros [= <-]].
    destruct (history s !! _); simpl; [|done].
    intros [= <-]. unfold short; simpl. split; [done|lia].
Qed.

(** X20.  In the drafts the drop handler is the one of the first render, so
    an accepted drop stores the history [[[]; newBlocks]] with the cursor
    at 1 whatever the history was: in every state a run reaches the history
    has at most two snapshots, and after any accepted drop a single undo
    empties the canvas. *)
Theorem draft_history_is_short evs :
  ∃ s, run evs initial = Some s
       ∧ (history s = [[]] ∨ ∃ l, history s = [[]; l])
       ∧ currentIndex s ≤ 1
       ∧ ∀ block, (onDropBlock block s).1 = None →
           history (onDropBlock block s).2 = [[]; blocks s ++ [block]]
           ∧ currentIndex (onDropBlock block s).2 = 1
           ∧ ∃ u, handleUndo (onDropBlock block s).2 = Some u
                  ∧ blocks u = [].
Proof.
  destruct (run_steady evs initial steady_initial) as (s & Hrun & Href & _).
  assert (Hshort : short s).
  { apply (draft_run_invariant short short_dispatch evs initial); [|done].
    unfold short; simpl. split; [by left|lia]. }
  destruct Hshort as [Hh Hc].
  exists s. split; [done|]. split; [done|]. split.
  { destruct Hh as [Hh|[l Hh]]; rewrite Hh in Hc; simpl in Hc; lia. }
  intros block Hacc.
  destruct (onDropBlock_cases block s) as [[_ Hr]|[_ Hr]];
    rewrite Hr in *; [done|].
  cbn [snd history currentIndex]. rewrite Href.
  split; [done|]. split; [done|]. by eexists.
Qed.





End DraftFacts.

Module MenuFacts.
Import Draft.

(** X5.  In the drafts, after any sequence of right-clicks and clicks the
    context menu is rendered exactly when the last event was a right-click,
    with [left] and [top] at the coordinates of that right-click; before
    any event it is rendered as the state says. *)
Theorem context_menu_follows_last_event evs m :
  ContextMenu (fold_left menuStep evs m)
  = match last evs with
    | Some (RightClick clientX clientY) => Some (clientY, clientX)
    | Some Click => None
    | None => ContextMenu m
    end.
Proof.
  induction evs as [|e evs _] using rev_ind; [done|].
  rewrite fold_left_app, last_snoc. by destruct e.
Qed.

End MenuFacts.

(** * The drop on the canvas *)

(** X19.  A drop of a toolbox entry changes nothing and raises no alert
    when the canvas has no node or the pointer offset is missing.
    Otherwise it is either turned down with the alert and the state
    unchanged, or it adds one block at the end of the live list: with the
    id just generated, the kind and the label of the entry, no message
    flag, and the pointer offset taken relative to the corner of the
    canvas as coordinates. *)
Theorem canvasDrop_places_entry rect offset uuid e s :
  e ∈ Toolbox.BLOCKS →
  canvasDrop None offset uuid (Toolbox.item e) s = (None, s)
  ∧ canvasDrop rect None uuid (Toolbox.item e) s = (None, s)
  ∧ ∀ r o,
      canvasDrop (Some r) (Some o) uuid (Toolbox.item e) s = (Some alertText, s)
      ∨ ∃ b, (canvasDrop (Some r) (Some o) uuid (Toolbox.item e) s).1 = None
             ∧ blocks (canvasDrop (Some r) (Some o) uuid (Toolbox.item e) s).2
               = blocks s ++ [b]
             ∧ id b = uuid
             ∧ type b = Toolbox.type e
             ∧ label b = Toolbox.label e
             ∧ x b = (o.1 - r.1)%Z ∧ y b = (o.2 - r.2)%Z
             ∧ showMessage b = None.
Proof.
  intros He. split; [done|]. split; [by destruct rect|].
  intros r o. unfold canvasDrop, handleDropBlock, Toolbox.item.
  destruct (rejects (Toolbox.type e) (blocks s)); [by left|right].
  eexists. split; [done|]. split; [done|].
  repeat split.
  apply elem_of_cons in He as [->|He]; [done|].
  apply list_elem_of_singleton in He as ->. done.
Qed.

Lemma canvasDrop_places_entry_witness :
  let e := {| Toolbox.id := "blockA"; Toolbox.label := "Block A";
              Toolbox.type := blockA |} in
  e ∈ Toolbox.BLOCKS
  ∧ canvasDrop None (Some (5, 5)%Z) "u1" (Toolbox.item e) initial
    = (None, initial).
Proof.
  intros e.
  assert (He : e ∈ Toolbox.BLOCKS) by left.
  split; [exact He|].
  exact (proj1 (canvasDrop_places_entry None (Some (5, 5)%Z) "u1" e initial He)).
Defined.

(** * Ids of the instances *)



